(** * eslint-plugin-sort-imports: the [sort-imports] rule

    A shallow embedding of [src/sort-imports.ts] and the properties of its
    violation reports and of the text of its fixes.

    The rule is a listener called once per import declaration, in source
    order.  It keeps the previously visited declaration, compares each
    declaration with it, checks the named specifiers of each declaration and
    attaches to every report a fix that rewrites the imports of the file. *)

From Stdlib Require Import List String Ascii ZArith NArith Lia Bool Arith Permutation.
Import ListNotations.

Open Scope string_scope.
Open Scope list_scope.

(** ** The host language

    The operations of JavaScript strings and arrays that the rule calls.
    A string is its sequence of code units; a code unit is an [ascii], so the
    model covers the code units below 256. *)

Module JS.

(** [s.substring(a, b)] for indices that are not negative: both are clamped
    to the length, and swapped when [a > b]. *)
Definition substring (s : string) (a b : nat) : string :=
  let lo := Nat.min (Nat.min a b) (String.length s) in
  let hi := Nat.min (Nat.max a b) (String.length s) in
  String.substring lo (hi - lo) s.

(** [s.slice(a, b)] for indices that are not negative: as [substring], but
    empty when [a > b]. *)
Definition slice (s : string) (a b : nat) : string :=
  let lo := Nat.min a (String.length s) in
  let hi := Nat.min b (String.length s) in
  String.substring lo (hi - lo) s.

(** Lower case of one code unit: the letters [A]-[Z] and the capital
    letters of the Latin-1 supplement. *)
Definition lowerUnit (c : ascii) : ascii :=
  let n := N_of_ascii c in
  if ((65 <=? n) && (n <=? 90) || (192 <=? n) && (n <=? 222) && negb (n =? 215))%N
  then ascii_of_N (n + 32) else c.

Fixpoint toLowerCase (s : string) : string :=
  match s with
  | EmptyString => EmptyString
  | String c s' => String (lowerUnit c) (toLowerCase s')
  end.

(** A string in a condition: the empty string is the only false one. *)
Definition truthy (s : string) : bool :=
  match s with EmptyString => false | String _ _ => true end.

(** [a < b] on strings: the order of the code units, a proper prefix first. *)
Definition lt (a b : string) : bool := String.ltb a b.

(** [a > b] on strings. *)
Definition gt (a b : string) : bool := String.ltb b a.

(** [a > b] where [a] was read from an array and may be [undefined]:
    [undefined] is turned into [NaN], and every comparison with it is
    false. *)
Definition gtUndefined (a : option string) (b : string) : bool :=
  match a with
  | None => false
  | Some a' => gt a' b
  end.

(** [array[i]], [undefined] outside the array. *)
Definition get {A : Type} (array : list A) (i : Z) : option A :=
  if (i <? 0)%Z then None else nth_error array (Z.to_nat i).

Fixpoint indexOfFrom {A : Type} (eqb : A -> A -> bool) (x : A) (l : list A) (i : Z) : Z :=
  match l with
  | [] => (-1)%Z
  | y :: l' => if eqb y x then i else indexOfFrom eqb x l' (i + 1)%Z
  end.

(** [array.indexOf(x)]: the first index of [x], or [-1]. *)
Definition indexOf {A : Type} (eqb : A -> A -> bool) (l : list A) (x : A) : Z :=
  indexOfFrom eqb x l 0%Z.

Fixpoint findIndexFrom {A : Type} (p : A -> Z -> list A -> bool)
    (array rest : list A) (i : Z) : Z :=
  match rest with
  | [] => (-1)%Z
  | x :: rest' => if p x i array then i else findIndexFrom p array rest' (i + 1)%Z
  end.

(** [array.findIndex(p)]: the first index whose element satisfies [p],
    which receives the element, its index and the array; or [-1]. *)
Definition findIndex {A : Type} (p : A -> Z -> list A -> bool) (array : list A) : Z :=
  findIndexFrom p array array 0%Z.

(** [array.some(p)]. *)
Definition some {A : Type} (p : A -> bool) (array : list A) : bool := existsb p array.

End JS.

(** ** The engine's [Array.prototype.sort]

    ESLint runs on Node, whose engine sorts with TimSort.  An array shorter
    than 64 elements is one run: the longest ascending or strictly
    descending prefix is found (and reversed when descending), and the other
    elements are inserted into it one by one with a binary search.  This is
    the sort of the module; longer arrays are cut into such runs and merged,
    which is not followed here.  Every call of the comparison function has
    the later element first. *)

Module V8.

Section Sort.
Context {A : Type}.
Variable comparefn : A -> A -> Z.

(** The number of elements after [previousElement] that continue the
    run. *)
Fixpoint runTail (isDescending : bool) (previousElement : A) (rest : list A) : nat :=
  match rest with
  | [] => 0
  | currentElement :: rest' =>
      let order := comparefn currentElement previousElement in
      if (if isDescending then (order >=? 0)%Z else (order <? 0)%Z) then 0
      else S (runTail isDescending currentElement rest')
  end.

(** [CountAndMakeRun]: the array with its first run made ascending, and
    the length of that run. *)
Definition CountAndMakeRun (array : list A) : list A * nat :=
  match array with
  | [] => ([], 0)
  | [x] => ([x], 1)
  | elementHigh :: elementLow :: rest =>
      let order := comparefn elementLow elementHigh in
      let isDescending := (order <? 0)%Z in
      let runLength := 2 + runTail isDescending elementLow rest in
      if isDescending
      then (rev (firstn runLength array) ++ skipn runLength array, runLength)
      else (array, runLength)
  end.

(** The binary search of [BinaryInsertionSort]: the place of [pivot]
    in [sorted], between [left] and [right]. *)
Fixpoint search (fuel : nat) (pivot : A) (sorted : list A) (left right : nat) : nat :=
  match fuel with
  | O => left
  | S fuel' =>
      if (left <? right)%nat then
        let mid := left + Nat.div2 (right - left) in
        match nth_error sorted mid with
        | None => left
        | Some x =>
            if (comparefn pivot x <? 0)%Z
            then search fuel' pivot sorted left mid
            else search fuel' pivot sorted (mid + 1) right
        end
      else left
  end.

Definition insert (pivot : A) (sorted : list A) : list A :=
  let left := search (List.length sorted) pivot sorted 0 (List.length sorted) in
  firstn left sorted ++ pivot :: skipn left sorted.

(** [BinaryInsertionSort]: the elements of [pending] are inserted, in
    their order, into the sorted prefix. *)
Fixpoint BinaryInsertionSort (sorted pending : list A) : list A :=
  match pending with
  | [] => sorted
  | pivot :: pending' => BinaryInsertionSort (insert pivot sorted) pending'
  end.

Definition sort (array : list A) : list A :=
  let (work, runLength) := CountAndMakeRun array in
  BinaryInsertionSort (firstn runLength work) (skipn runLength work).

End Sort.

End V8.

(** ** The syntax tree

    What the rule reads of the tree the host hands to it.  Offsets into the
    text are not negative; line numbers are whatever the host says. *)

Inductive SpecifierType : Type :=
  | ImportSpecifier
  | ImportDefaultSpecifier
  | ImportNamespaceSpecifier.

Definition isImportSpecifier (t : SpecifierType) : bool :=
  match t with ImportSpecifier => true | _ => false end.

(** One specifier of an import: [local_name] is [specifier.local.name],
    [commentsBefore] and [commentsAfter] are what the host answers to
    [sourceCode.getCommentsBefore(specifier)] and
    [sourceCode.getCommentsAfter(specifier)]. *)
Record Specifier : Type := mkSpecifier {
  spec_type : SpecifierType;
  local_name : string;
  spec_range : nat * nat;
  commentsBefore : list string;
  commentsAfter : list string
}.

Inductive ImportKind : Type := KindType | KindValue.

(** An import declaration: [source_value] is [node.source.value], the lines
    are [node.loc.start.line] and [node.loc.end.line]. *)
Record ImportDeclaration : Type := mkImportDeclaration {
  specifiers : list Specifier;
  importKind : option ImportKind;
  source_value : string;
  range : nat * nat;
  loc_start_line : Z;
  loc_end_line : Z
}.

(** A statement: an import, a [declare module] block with the statements
    of its body, or anything else. *)
#[warnings="-register-all"] Inductive Statement : Type :=
  | ImportStatement (node : ImportDeclaration)
  | ModuleDeclaration (body : list Statement)
  | OtherStatement.

(** The import declarations of a statement, in the order of the source:
    the nodes on which the host calls a listener for [ImportDeclaration],
    at any depth. *)
Fixpoint importDeclarationsIn (n : Statement) : list ImportDeclaration :=
  match n with
  | ImportStatement node => [node]
  | ModuleDeclaration body => flat_map importDeclarationsIn body
  | OtherStatement => []
  end.

(** The host's [sourceCode]: the text and the body of the tree. *)
Record SourceCode : Type := mkSourceCode {
  getText : string;
  ast_body : list Statement
}.

(** ** The options *)

Inductive MemberSyntaxSortOrder : Type := None_ | All | Multiple | Single.

Definition MemberSyntaxSortOrder_eqb (a b : MemberSyntaxSortOrder) : bool :=
  match a, b with
  | None_, None_ | All, All | Multiple, Multiple | Single, Single => true
  | _, _ => false
  end.

Inductive TypeSortStrategy : Type := mixed | before | after.

Definition TypeSortStrategy_eqb (a b : TypeSortStrategy) : bool :=
  match a, b with
  | mixed, mixed | before, before | after, after => true
  | _, _ => false
  end.

Record Options : Type := mkOptions {
  ignoreCase : bool;
  ignoreMemberSort : bool;
  memberSyntaxSortOrder : list MemberSyntaxSortOrder;
  typeSortStrategy : TypeSortStrategy
}.

Definition defaultOptions : Options :=
  {| ignoreCase := false;
     ignoreMemberSort := false;
     memberSyntaxSortOrder := [None_; All; Multiple; Single];
     typeSortStrategy := after |}.

(** What the schema of the rule accepts for [memberSyntaxSortOrder]: four
    items, all different. *)
Definition schemaValid (config : Options) : Prop :=
  NoDup (memberSyntaxSortOrder config) /\
  List.length (memberSyntaxSortOrder config) = 4.

(** ** The reports *)

Inductive MessageIds : Type :=
  | memberAlphabetical
  | wrongOrder
  | typeOrder
  | alphabeticalOrder.

Definition MessageIds_eqb (a b : MessageIds) : bool :=
  match a, b with
  | memberAlphabetical, memberAlphabetical
  | wrongOrder, wrongOrder
  | typeOrder, typeOrder
  | alphabeticalOrder, alphabeticalOrder => true
  | _, _ => false
  end.

(** The [data] of a report.  An entry of [memberSyntaxSortOrder] read at an
    index outside the array is [undefined], here [None]. *)
Inductive ReportData : Type :=
  | NoData
  | TypeOrderData (typeSortStrategy : TypeSortStrategy)
  | WrongOrderData (syntaxA syntaxB : option MemberSyntaxSortOrder)
  | MemberData (memberName : string).

Inductive ReportNode : Type :=
  | OnDeclaration (node : ImportDeclaration)
  | OnSpecifier (specifier : Specifier).

(** What the [fix] function of a report does when the host calls it:
    it returns [null], or the replacement of a range of the text, or it
    throws. *)
Inductive FixOutcome : Type :=
  | FixNull
  | FixReplace (fixRange : nat * nat) (text : string)
  | FixThrows.

Record Report : Type := mkReport {
  report_node : ReportNode;
  messageId : MessageIds;
  data : ReportData;
  report_fix : FixOutcome
}.

(** Whether a list of reports has one with the given message. *)
Definition reported (m : MessageIds) (reports : list Report) : bool :=
  existsb (fun r => MessageIds_eqb (messageId r) m) reports.

(** ** The helpers of the rule *)

Definition getSortableName (specifier : Specifier) (ignoreCase : bool) : string :=
  if ignoreCase then JS.toLowerCase (local_name specifier) else local_name specifier.

Definition usedMemberSyntax (node : ImportDeclaration) : MemberSyntaxSortOrder :=
  match specifiers node with
  | [] => None_
  | first :: _ =>
      match spec_type first with
      | ImportNamespaceSpecifier => All
      | ImportDefaultSpecifier => Single
      | ImportSpecifier => Multiple
      end
  end.

Definition getMemberParameterGroupIndex (node : ImportDeclaration)
    (memberSyntaxSortOrder : list MemberSyntaxSortOrder) : Z :=
  JS.indexOf MemberSyntaxSortOrder_eqb memberSyntaxSortOrder (usedMemberSyntax node).

Definition getFirstLocalMemberName (node : ImportDeclaration) : string :=
  match specifiers node with
  | [] => source_value node
  | first :: _ => local_name first
  end.

Definition isLineBetween (firstNode secondNode : ImportDeclaration) : bool :=
  (loc_end_line firstNode <? loc_start_line secondNode - 1)%Z.

(** [(node.importKind && node.importKind === "type") || false] *)
Definition isTypeImport (node : ImportDeclaration) : bool :=
  match importKind node with
  | Some KindType => true
  | _ => false
  end.

(** The named specifiers of a declaration, and the index of the first one
    whose name is below the name before it: the test
    [array[index - 1] > name] of the two places that scan the names. *)
Definition namedSpecifiers (node : ImportDeclaration) : list Specifier :=
  filter (fun specifier => isImportSpecifier (spec_type specifier)) (specifiers node).

Definition firstUnsorted (ignoreCase : bool) (importSpecifiers : list Specifier) : Z :=
  JS.findIndex (fun name index array => JS.gtUndefined (JS.get array (index - 1)%Z) name)
    (map (fun s => getSortableName s ignoreCase) importSpecifiers).

(** ** Code that may throw

    Reading a property of [undefined] throws.  A computation that may throw
    returns an [option]; [None] is the exception. *)

Definition bind {A B : Type} (m : option A) (k : A -> option B) : option B :=
  match m with
  | Some x => k x
  | None => None
  end.

Notation "x <- m ;; k" := (bind m (fun x => k))
  (at level 61, m at next level, right associativity).

Fixpoint mapM {A B : Type} (f : A -> option B) (l : list A) : option (list B) :=
  match l with
  | [] => Some []
  | x :: l' => y <- f x ;; ys <- mapM f l' ;; Some (y :: ys)
  end.

(** The last element of an array, [None] when it has none. *)
Fixpoint lastOf {A : Type} (l : list A) : option A :=
  match l with
  | [] => None
  | [x] => Some x
  | _ :: l' => lastOf l'
  end.

(** ** The rule

    [Array_sort] is the engine's [Array.prototype.sort]; the rule is the
    same whatever the engine. *)

Section Rule.

Variable Array_sort : forall A : Type, (A -> A -> Z) -> list A -> list A.
Variable config : Options.
Variable sourceCode : SourceCode.

(** [sourceCode.ast.body.filter((n) => n.type === "ImportDeclaration")]:
    the imports that are statements of the program body, not the ones
    inside a [declare module] block. *)
Definition allDeclarations : list ImportDeclaration :=
  flat_map (fun n => match n with ImportStatement node => [node] | _ => [] end)
    (ast_body sourceCode).

(** Every import declaration of the file, the nested ones too: the nodes
    that the host visits. *)
Definition visitedDeclarations : list ImportDeclaration :=
  flat_map importDeclarationsIn (ast_body sourceCode).

(** *** sortAndFixAllNodes *)

(** A declaration with the text that stands for it. *)
Definition Rich : Type := (ImportDeclaration * string)%type.

Definition rich (initial : string) (nodes : list ImportDeclaration) : list Rich :=
  map (fun node => (node, JS.substring initial (fst (range node)) (snd (range node)))) nodes.

(** The text between each declaration and the next one. *)
Fixpoint betweens (initial : string) (nodes : list ImportDeclaration) : list string :=
  match nodes with
  | node :: (next :: _) as rest =>
      JS.substring initial (snd (range node)) (fst (range next)) :: betweens initial rest
  | _ => []
  end.

(** The comparison function of the sort of the specifiers. *)
Definition compareSpecifiers (specifierA specifierB : Specifier) : Z :=
  let aName := getSortableName specifierA (ignoreCase config) in
  let bName := getSortableName specifierB (ignoreCase config) in
  if JS.gt aName bName then 1%Z else (-1)%Z.

(** The [reduce] over the sorted specifiers: each one is followed by the
    text that followed the specifier of the same index in the source. *)
Fixpoint specifierTexts (initial : string) (importSpecifiers sorted : list Specifier)
    (index : Z) (sourceText : string) : option string :=
  match sorted with
  | [] => Some sourceText
  | specifier :: sorted' =>
      textAfterSpecifier <-
        (if (index =? Z.of_nat (List.length importSpecifiers) - 1)%Z then Some ""
         else
           this <- JS.get importSpecifiers index ;;
           next <- JS.get importSpecifiers (index + 1)%Z ;;
           Some (JS.slice initial (snd (spec_range this)) (fst (spec_range next)))) ;;
      specifierTexts initial importSpecifiers sorted' (index + 1)%Z
        (sourceText
           ++ JS.substring initial (fst (spec_range specifier)) (snd (spec_range specifier))
           ++ textAfterSpecifier)%string
  end.

(** The function mapped over [rich]: the text of a declaration whose
    named specifiers are not sorted is rebuilt. *)
Definition fixSpecifiers (initial : string) (n : Rich) : option Rich :=
  let node := fst n in
  if negb (ignoreMemberSort config) then
    let importSpecifiers := namedSpecifiers node in
    let firstUnsortedIndex := firstUnsorted (ignoreCase config) importSpecifiers in
    if negb (firstUnsortedIndex =? -1)%Z then
      first <- JS.get importSpecifiers 0%Z ;;
      last <- JS.get importSpecifiers (Z.of_nat (List.length importSpecifiers) - 1)%Z ;;
      let before := JS.substring initial (fst (range node)) (fst (spec_range first)) in
      let after := JS.substring initial (snd (spec_range last)) (snd (range node)) in
      between <-
        specifierTexts initial importSpecifiers
          (Array_sort Specifier compareSpecifiers importSpecifiers) 0%Z "" ;;
      Some (node, (before ++ between ++ after)%string)
    else Some n
  else Some n.

(** The [reduce] that groups the declarations: [sections] is kept as the
    finished sections and the last one, to which [push] adds. *)
Definition pushSection (sections : list (list Rich) * list Rich) (current : Rich)
    : list (list Rich) * list Rich :=
  let (finished, lastSection) := sections in
  match lastOf lastSection with
  | None => (finished, [current])
  | Some lastFixed =>
      if isLineBetween (fst lastFixed) (fst current)
      then (finished ++ [lastSection], [current])
      else (finished, lastSection ++ [current])
  end.

Definition sectionsOf (fixed : list Rich) : list (list Rich) :=
  let (finished, lastSection) := fold_left pushSection fixed ([], []) in
  finished ++ [lastSection].

(** The comparison function of the sort of the declarations. *)
Definition compareDeclarations (a b : Rich) : Z :=
  let currentMemberSyntaxGroupIndex :=
    getMemberParameterGroupIndex (fst b) (memberSyntaxSortOrder config) in
  let currentMemberIsType := isTypeImport (fst b) in
  let previousMemberSyntaxGroupIndex :=
    getMemberParameterGroupIndex (fst a) (memberSyntaxSortOrder config) in
  let previousMemberIsType := isTypeImport (fst a) in
  let currentLocalMemberName0 := getFirstLocalMemberName (fst b) in
  let previousLocalMemberName0 := getFirstLocalMemberName (fst a) in
  let previousLocalMemberName :=
    if ignoreCase config
    then (if JS.truthy previousLocalMemberName0
          then JS.toLowerCase previousLocalMemberName0 else previousLocalMemberName0)
    else previousLocalMemberName0 in
  let currentLocalMemberName :=
    if ignoreCase config
    then (if JS.truthy currentLocalMemberName0
          then JS.toLowerCase currentLocalMemberName0 else currentLocalMemberName0)
    else currentLocalMemberName0 in
  if negb (TypeSortStrategy_eqb (typeSortStrategy config) mixed)
     && negb (Bool.eqb currentMemberIsType previousMemberIsType)
  then
    if currentMemberIsType && TypeSortStrategy_eqb (typeSortStrategy config) before
       || previousMemberIsType && TypeSortStrategy_eqb (typeSortStrategy config) after
    then 1%Z else (-1)%Z
  else if negb (currentMemberSyntaxGroupIndex =? previousMemberSyntaxGroupIndex)%Z then
    if (currentMemberSyntaxGroupIndex <? previousMemberSyntaxGroupIndex)%Z
    then 1%Z else (-1)%Z
  else if JS.truthy previousLocalMemberName && JS.truthy currentLocalMemberName then
    if JS.lt currentLocalMemberName previousLocalMemberName then 1%Z else (-1)%Z
  else 0%Z.

(** The sections, each one sorted, flattened. *)
Definition sortSections (sections : list (list Rich)) : list Rich :=
  flat_map (Array_sort Rich compareDeclarations) sections.

(** The last [reduce]: the texts in their new order, with the text that
    was between the declarations of the same indices in the source.  An
    entry of [betweens] that does not exist is printed as [undefined]. *)
Fixpoint joinTexts (betweens : list string) (texts : list string) (i : Z) (done : string)
    : string :=
  match texts with
  | [] => done
  | current :: texts' =>
      joinTexts betweens texts' (i + 1)%Z
        (done
           ++ (if negb (i =? 0)%Z
               then match JS.get betweens (i - 1)%Z with
                    | Some text => text
                    | None => "undefined"
                    end
               else "")
           ++ current)%string
  end.

(** The declarations in the order of the fix, each with its text. *)
Definition sortedNodes (initial : string) (nodes : list ImportDeclaration)
    : option (list Rich) :=
  fixed <- mapM (fixSpecifiers initial) (rich initial nodes) ;;
  Some (sortSections (sectionsOf fixed)).

Definition sortAndFixAllNodes (initial : string) (nodes : list ImportDeclaration)
    : option string :=
  sorted <- sortedNodes initial nodes ;;
  Some (joinTexts (betweens initial nodes) (map snd sorted) 0%Z "").

(** *** The listener *)

(** The two variables of [create] that the listener assigns. *)
Record State : Type := mkState {
  previousDeclaration : option ImportDeclaration;
  initialSource : option string
}.

Definition initialState : State :=
  {| previousDeclaration := None; initialSource := None |}.

(** The [fix] of the reports: the range from the start of the first
    declaration of the file to the end of the last one is replaced by the
    text of [sortAndFixAllNodes]. *)
Definition replaceAllDeclarations (initialSource : string) : FixOutcome :=
  match JS.get allDeclarations 0%Z,
        JS.get allDeclarations (Z.of_nat (List.length allDeclarations) - 1)%Z,
        sortAndFixAllNodes initialSource allDeclarations
  with
  | Some first, Some last, Some text =>
      FixReplace (fst (range first), snd (range last)) text
  | _, _, _ => FixThrows
  end.

(** The comparison of a declaration with the one before it, when no line
    is between them. *)
Definition comparePrevious (initialSource : string)
    (previousDeclaration node : ImportDeclaration) : list Report :=
  let currentMemberSyntaxGroupIndex :=
    getMemberParameterGroupIndex node (memberSyntaxSortOrder config) in
  let currentMemberIsType := isTypeImport node in
  let previousMemberSyntaxGroupIndex :=
    getMemberParameterGroupIndex previousDeclaration (memberSyntaxSortOrder config) in
  let previousMemberIsType := isTypeImport previousDeclaration in
  let currentLocalMemberName0 := getFirstLocalMemberName node in
  let previousLocalMemberName0 := getFirstLocalMemberName previousDeclaration in
  let previousLocalMemberName :=
    if ignoreCase config
    then JS.toLowerCase previousLocalMemberName0 else previousLocalMemberName0 in
  let currentLocalMemberName :=
    if ignoreCase config
    then JS.toLowerCase currentLocalMemberName0 else currentLocalMemberName0 in
  if negb (TypeSortStrategy_eqb (typeSortStrategy config) mixed)
     && negb (Bool.eqb currentMemberIsType previousMemberIsType)
  then
    if currentMemberIsType && TypeSortStrategy_eqb (typeSortStrategy config) before
       || previousMemberIsType && TypeSortStrategy_eqb (typeSortStrategy config) after
    then
      [ {| report_node := OnDeclaration node;
           messageId := typeOrder;
           data := TypeOrderData (typeSortStrategy config);
           report_fix := replaceAllDeclarations initialSource |} ]
    else []
  else if negb (currentMemberSyntaxGroupIndex =? previousMemberSyntaxGroupIndex)%Z then
    if (currentMemberSyntaxGroupIndex <? previousMemberSyntaxGroupIndex)%Z
    then
      [ {| report_node := OnDeclaration node;
           messageId := wrongOrder;
           data := WrongOrderData
                     (JS.get (memberSyntaxSortOrder config) currentMemberSyntaxGroupIndex)
                     (JS.get (memberSyntaxSortOrder config) previousMemberSyntaxGroupIndex);
           report_fix := replaceAllDeclarations initialSource |} ]
    else []
  else
    if JS.truthy previousLocalMemberName && JS.truthy currentLocalMemberName
       && JS.lt currentLocalMemberName previousLocalMemberName
    then
      [ {| report_node := OnDeclaration node;
           messageId := alphabeticalOrder;
           data := NoData;
           report_fix := replaceAllDeclarations initialSource |} ]
    else [].

(** [importSpecifiers.some(...)]: a specifier has a comment before or
    after it. *)
Definition hasComments (importSpecifiers : list Specifier) : bool :=
  JS.some (fun specifier =>
             negb (List.length (commentsBefore specifier) =? 0)%nat
             || negb (List.length (commentsAfter specifier) =? 0)%nat)
    importSpecifiers.

(** The check of the named specifiers of a declaration. *)
Definition checkMembers (initialSource : string) (node : ImportDeclaration)
    : option (list Report) :=
  if negb (ignoreMemberSort config) then
    let importSpecifiers := namedSpecifiers node in
    let firstUnsortedIndex := firstUnsorted (ignoreCase config) importSpecifiers in
    if negb (firstUnsortedIndex =? -1)%Z then
      flagged <- JS.get importSpecifiers firstUnsortedIndex ;;
      Some [ {| report_node := OnSpecifier flagged;
                messageId := memberAlphabetical;
                data := MemberData (local_name flagged);
                report_fix :=
                  if hasComments importSpecifiers then FixNull
                  else replaceAllDeclarations initialSource |} ]
    else Some []
  else Some [].

(** [if (!initialSource) initialSource = sourceCode.getText()]: the value
    of [initialSource] after the first statement of the listener. *)
Definition readSource (st : State) : string :=
  match initialSource st with
  | Some text => if JS.truthy text then text else getText sourceCode
  | None => getText sourceCode
  end.

(** The listener [ImportDeclaration(node)]: the new state and the reports,
    in the order they are made. *)
Definition onImportDeclaration (st : State) (node : ImportDeclaration)
    : option (State * list Report) :=
  let initialSource' := readSource st in
  let orderReports :=
    match previousDeclaration st with
    | Some previous =>
        if negb (isLineBetween previous node)
        then comparePrevious initialSource' previous node
        else []
    | None => []
    end in
  memberReports <- checkMembers initialSource' node ;;
  Some ({| previousDeclaration := Some node; initialSource := Some initialSource' |},
        orderReports ++ memberReports).

(** The host calls the listener on each declaration, in source order. *)
Fixpoint visitAll (st : State) (nodes : list ImportDeclaration) : option (list Report) :=
  match nodes with
  | [] => Some []
  | node :: nodes' =>
      r <- onImportDeclaration st node ;;
      more <- visitAll (fst r) nodes' ;;
      Some (snd r ++ more)
  end.

Definition fixThrows (r : Report) : bool :=
  match report_fix r with
  | FixThrows => true
  | _ => false
  end.

(** The walk of the host over a file.  The listener is called on every
    import declaration of the file.  The host runs the fix of a report when
    the report is made, so a fix that throws ends the walk with its
    exception. *)
Definition lint : option (list Report) :=
  reports <- visitAll initialState visitedDeclarations ;;
  if existsb fixThrows reports then None else Some reports.

(** The two fixes that a report on a declaration of [nodes] can have: the
    replacement of all the imports, or nothing, for a report on members
    that have comments. *)
Definition fixOf (initial : string) (nodes : list ImportDeclaration) (r : Report) : Prop :=
  report_fix r = replaceAllDeclarations initial
  \/ (report_fix r = FixNull
      /\ messageId r = memberAlphabetical
      /\ exists node flagged,
           In node nodes
           /\ report_node r = OnSpecifier flagged
           /\ In flagged (namedSpecifiers node)
           /\ hasComments (namedSpecifiers node) = true).

End Rule.

(** ** What is asked of the engine

    Every engine returns the elements it was given, in some order. *)

Definition sortPermutes (Array_sort : forall A : Type, (A -> A -> Z) -> list A -> list A) : Prop :=
  forall (A : Type) (comparefn : A -> A -> Z) (array : list A),
    Permutation (Array_sort A comparefn array) array.

(** ** Words of the specification *)

(** The name at position [k] sorts strictly before the name just before
    it.  Position [0] has no name before it. *)
Definition unsortedAt (names : list string) (k : nat) : bool :=
  match k with
  | O => false
  | S j =>
      match nth_error names j, nth_error names k with
      | Some previous, Some name => JS.lt name previous
      | _, _ => false
      end
  end.





(** The names that the scan of the named specifiers compares. *)
Definition sortableNames (config : Options) (node : ImportDeclaration) : list string :=
  map (fun s => getSortableName s (ignoreCase config)) (namedSpecifiers node).

(** The first local name of a declaration as the comparison with the
    previous declaration sees it. *)
Definition normalizedFirstName (config : Options) (node : ImportDeclaration) : string :=
  if ignoreCase config
  then JS.toLowerCase (getFirstLocalMemberName node)
  else getFirstLocalMemberName node.

(** The range from the start of the first declaration of a run to the end
    of its last one. *)
Definition spanOf (run : list ImportDeclaration) : option (nat * nat) :=
  first <- hd_error run ;;
  last <- lastOf run ;;
  Some (fst (range first), snd (range last)).

(** The sections that the grouping makes of [rest] when its last section
    is [lastSection]: the same grouping, written by recursion on the
    declarations still to come. *)
Fixpoint groups (lastSection rest : list Rich) : list (list Rich) :=
  match rest with
  | [] => [lastSection]
  | current :: rest' =>
      match lastOf lastSection with
      | None => groups [current] rest'
      | Some lastFixed =>
          if isLineBetween (fst lastFixed) (fst current)
          then lastSection :: groups [current] rest'
          else groups (lastSection ++ [current]) rest'
      end
  end.

(** No line is between two declarations that follow each other in the
    list. *)
Fixpoint adjacentAll (run : list Rich) : Prop :=
  match run with
  | x :: (y :: _) as run' => isLineBetween (fst x) (fst y) = false /\ adjacentAll run'
  | _ => True
  end.

(** A line is between the last declaration of each section and the first
    one of the next section. *)
Fixpoint separated (sections : list (list Rich)) : Prop :=
  match sections with
  | s1 :: (s2 :: _) as sections' =>
      (exists x y, lastOf s1 = Some x /\ hd_error s2 = Some y
                   /\ isLineBetween (fst x) (fst y) = true)
      /\ separated sections'
  | _ => True
  end.

(** The runs of a file: a run goes on as long as no line is between a
    declaration and the next one. *)
Fixpoint runsFrom (run : list ImportDeclaration) (last : ImportDeclaration)
    (rest : list ImportDeclaration) : list (list ImportDeclaration) :=
  match rest with
  | [] => [run]
  | node :: rest' =>
      if isLineBetween last node
      then run :: runsFrom [node] node rest'
      else runsFrom (run ++ [node]) node rest'
  end.

Definition runs (nodes : list ImportDeclaration) : list (list ImportDeclaration) :=
  match nodes with
  | [] => []
  | node :: rest => runsFrom [node] node rest
  end.



(** The texts of the declarations with the texts of the gaps between them:
    a text, a gap, a text, and so on to the last text. *)
Fixpoint interleave (texts gaps : list string) : string :=
  match texts, gaps with
  | text :: texts', gap :: gaps' => (text ++ gap ++ interleave texts' gaps')%string
  | [text], [] => text
  | _, _ => ""
  end.

(** Ranges that follow each other between two offsets: each one starts at
    or after the end of the one before it, and does not end before it
    starts. *)
Fixpoint placed (from : nat) (ranges : list (nat * nat)) (to : nat) : Prop :=
  match ranges with
  | [] => (from <= to)%nat
  | r :: ranges' => (from <= fst r)%nat /\ (fst r <= snd r)%nat /\ placed (snd r) ranges' to
  end.

(** The number of code units of a range, and of the gaps between ranges
    that follow each other. *)
Definition width (r : nat * nat) : nat := snd r - fst r.

Fixpoint gapsWidth (ranges : list (nat * nat)) : nat :=
  match ranges with
  | a :: (b :: _) as ranges' => (fst b - snd a) + gapsWidth ranges'
  | _ => 0
  end.

(** The named specifiers of a declaration are inside it, one after the
    other, as in every tree that a parser makes. *)
Definition wellPlaced (node : ImportDeclaration) : Prop :=
  placed (fst (range node)) (map spec_range (namedSpecifiers node)) (snd (range node)).

(** ** Source files used as examples

    Each one is a text and the tree of its imports; [agrees] checks the
    offsets, lines, names and kinds of the tree against the text. *)

Module Fixtures.

Definition LF : string := String (ascii_of_nat 10) EmptyString.

Fixpoint lineFeeds (text : string) (n : nat) : Z :=
  match n, text with
  | S n', String c text' =>
      ((if Ascii.eqb c (ascii_of_nat 10) then 1 else 0) + lineFeeds text' n')%Z
  | _, _ => 0%Z
  end.

Definition lineAt (text : string) (offset : nat) : Z := (1 + lineFeeds text offset)%Z.

Definition specifierAgrees (text : string) (a b : nat) (s : Specifier) : bool :=
  let (from, to) := spec_range s in
  (a <=? from)%nat && (from <=? to)%nat && (to <=? b)%nat
  && String.eqb (JS.substring text (to - String.length (local_name s)) to) (local_name s).

Definition declarationAgrees (text : string) (node : ImportDeclaration) : bool :=
  let (a, b) := range node in
  String.eqb (JS.substring text a (a + 7)) "import "
  && Bool.eqb (isTypeImport node) (String.eqb (JS.substring text (a + 7) (a + 12)) "type ")
  && String.eqb (JS.substring text (b - 3 - String.length (source_value node)) b)
       ("'" ++ source_value node ++ "';")%string
  && (loc_start_line node =? lineAt text a)%Z
  && (loc_end_line node =? lineAt text b)%Z
  && forallb (specifierAgrees text a b) (specifiers node).

Definition agrees (sourceCode : SourceCode) : bool :=
  forallb (declarationAgrees (getText sourceCode)) (visitedDeclarations sourceCode).

Definition alphabetical_1 : ImportDeclaration :=
  mkImportDeclaration
    [mkSpecifier ImportDefaultSpecifier "a" (7, 8) [] []]
    (Some KindValue) "foo.js" (0, 23) 1 1.

Definition alphabetical_2 : ImportDeclaration :=
  mkImportDeclaration
    [mkSpecifier ImportDefaultSpecifier "A" (31, 32) [] []]
    (Some KindValue) "bar.js" (24, 47) 2 2.

Definition alphabetical : SourceCode :=
  mkSourceCode
  ("import a from 'foo.js';"
   ++ LF ++ "import A from 'bar.js';")%string
  [ImportStatement alphabetical_1; ImportStatement alphabetical_2].

Definition members_1 : ImportDeclaration :=
  mkImportDeclaration
    [mkSpecifier ImportSpecifier "b" (8, 9) [] [];
     mkSpecifier ImportSpecifier "a" (11, 12) [] [];
     mkSpecifier ImportSpecifier "d" (14, 15) [] [];
     mkSpecifier ImportSpecifier "c" (17, 18) [] []]
    (Some KindValue) "foo.js" (0, 34) 1 1.

Definition members : SourceCode :=
  mkSourceCode
  "import {b, a, d, c} from 'foo.js';"
  [ImportStatement members_1].

Definition membersMixedCase_1 : ImportDeclaration :=
  mkImportDeclaration
    [mkSpecifier ImportSpecifier "a" (8, 9) [] [];
     mkSpecifier ImportSpecifier "B" (11, 12) [] [];
     mkSpecifier ImportSpecifier "D" (14, 15) [] [];
     mkSpecifier ImportSpecifier "c" (17, 18) [] []]
    (Some KindValue) "foo.js" (0, 34) 1 1.

Definition membersMixedCase : SourceCode :=
  mkSourceCode
  "import {a, B, D, c} from 'foo.js';"
  [ImportStatement membersMixedCase_1].

Definition syntaxOrder_1 : ImportDeclaration :=
  mkImportDeclaration
    [mkSpecifier ImportDefaultSpecifier "a" (7, 8) [] []]
    (Some KindValue) "foo.js" (0, 23) 1 1.

Definition syntaxOrder_2 : ImportDeclaration :=
  mkImportDeclaration
    [mkSpecifier ImportSpecifier "b" (32, 33) [] [];
     mkSpecifier ImportSpecifier "c" (35, 36) [] []]
    (Some KindValue) "bar.js" (24, 52) 2 2.

Definition syntaxOrder : SourceCode :=
  mkSourceCode
  ("import a from 'foo.js';"
   ++ LF ++ "import {b, c} from 'bar.js';")%string
  [ImportStatement syntaxOrder_1; ImportStatement syntaxOrder_2].

Definition typeFirst_1 : ImportDeclaration :=
  mkImportDeclaration
    [mkSpecifier ImportDefaultSpecifier "foo" (12, 15) [] []]
    (Some KindType) "foo" (0, 27) 1 1.

Definition typeFirst_2 : ImportDeclaration :=
  mkImportDeclaration
    [mkSpecifier ImportDefaultSpecifier "bar" (35, 38) [] []]
    (Some KindValue) "bar" (28, 50) 2 2.

Definition typeFirst : SourceCode :=
  mkSourceCode
  ("import type foo from 'foo';"
   ++ LF ++ "import bar from 'bar';")%string
  [ImportStatement typeFirst_1; ImportStatement typeFirst_2].

Definition twoRuns_1 : ImportDeclaration :=
  mkImportDeclaration
    [mkSpecifier ImportDefaultSpecifier "D" (7, 8) [] []]
    (Some KindValue) "foo.js" (0, 23) 1 1.

Definition twoRuns_2 : ImportDeclaration :=
  mkImportDeclaration
    [mkSpecifier ImportDefaultSpecifier "B" (31, 32) [] []]
    (Some KindValue) "bar.js" (24, 47) 2 2.

Definition twoRuns_3 : ImportDeclaration :=
  mkImportDeclaration
    [mkSpecifier ImportDefaultSpecifier "A" (56, 57) [] []]
    (Some KindValue) "baz.js" (49, 72) 4 4.

Definition twoRuns : SourceCode :=
  mkSourceCode
  ("import D from 'foo.js';"
   ++ LF ++ "import B from 'bar.js';"
   ++ LF ++ ""
   ++ LF ++ "import A from 'baz.js';")%string
  [ImportStatement twoRuns_1; ImportStatement twoRuns_2; ImportStatement twoRuns_3].

Definition staleName_1 : ImportDeclaration :=
  mkImportDeclaration
    [mkSpecifier ImportSpecifier "d" (8, 9) [] [];
     mkSpecifier ImportSpecifier "a" (11, 12) [] []]
    (Some KindValue) "x" (0, 23) 1 1.

Definition staleName_2 : ImportDeclaration :=
  mkImportDeclaration
    [mkSpecifier ImportSpecifier "c" (32, 33) [] []]
    (Some KindValue) "y" (24, 44) 2 2.

Definition staleName : SourceCode :=
  mkSourceCode
  ("import {d, a} from 'x';"
   ++ LF ++ "import {c} from 'y';")%string
  [ImportStatement staleName_1; ImportStatement staleName_2].

Definition staleNameFixed_1 : ImportDeclaration :=
  mkImportDeclaration
    [mkSpecifier ImportSpecifier "c" (8, 9) [] []]
    (Some KindValue) "y" (0, 20) 1 1.

Definition staleNameFixed_2 : ImportDeclaration :=
  mkImportDeclaration
    [mkSpecifier ImportSpecifier "a" (29, 30) [] [];
     mkSpecifier ImportSpecifier "d" (32, 33) [] []]
    (Some KindValue) "x" (21, 44) 2 2.

Definition staleNameFixed : SourceCode :=
  mkSourceCode
  ("import {c} from 'y';"
   ++ LF ++ "import {a, d} from 'x';")%string
  [ImportStatement staleNameFixed_1; ImportStatement staleNameFixed_2].

Definition commented_1 : ImportDeclaration :=
  mkImportDeclaration
    [mkSpecifier ImportSpecifier "z" (8, 9) [] ["/* c */"];
     mkSpecifier ImportSpecifier "y" (19, 20) [] []]
    (Some KindValue) "a" (0, 31) 1 1.

Definition commented_2 : ImportDeclaration :=
  mkImportDeclaration
    [mkSpecifier ImportSpecifier "b" (40, 41) [] []]
    (Some KindValue) "b" (32, 52) 2 2.

Definition commented : SourceCode :=
  mkSourceCode
  ("import {z /* c */, y} from 'a';"
   ++ LF ++ "import {b} from 'b';")%string
  [ImportStatement commented_1; ImportStatement commented_2].

Definition tiedSpecifiers_1 : ImportDeclaration :=
  mkImportDeclaration
    [mkSpecifier ImportSpecifier "b" (8, 9) [] [];
     mkSpecifier ImportSpecifier "a" (11, 12) [] [];
     mkSpecifier ImportSpecifier "A" (14, 15) [] []]
    (Some KindValue) "x" (0, 26) 1 1.

Definition tiedSpecifiers : SourceCode :=
  mkSourceCode
  "import {b, a, A} from 'x';"
  [ImportStatement tiedSpecifiers_1].

Definition tiedDeclarations_1 : ImportDeclaration :=
  mkImportDeclaration
    [mkSpecifier ImportDefaultSpecifier "b" (7, 8) [] []]
    (Some KindValue) "x" (0, 18) 1 1.

Definition tiedDeclarations_2 : ImportDeclaration :=
  mkImportDeclaration
    [mkSpecifier ImportDefaultSpecifier "a" (26, 27) [] []]
    (Some KindValue) "y" (19, 37) 2 2.

Definition tiedDeclarations_3 : ImportDeclaration :=
  mkImportDeclaration
    [mkSpecifier ImportDefaultSpecifier "A" (45, 46) [] []]
    (Some KindValue) "z" (38, 56) 3 3.

Definition tiedDeclarations : SourceCode :=
  mkSourceCode
  ("import b from 'x';"
   ++ LF ++ "import a from 'y';"
   ++ LF ++ "import A from 'z';")%string
  [ImportStatement tiedDeclarations_1;
   ImportStatement tiedDeclarations_2;
   ImportStatement tiedDeclarations_3].

Definition emptySource_1 : ImportDeclaration :=
  mkImportDeclaration
    []
    (Some KindValue) "e" (0, 11) 1 1.

Definition emptySource_2 : ImportDeclaration :=
  mkImportDeclaration
    []
    (Some KindValue) "f" (12, 23) 2 2.

Definition emptySource_3 : ImportDeclaration :=
  mkImportDeclaration
    []
    (Some KindValue) "g" (24, 35) 3 3.

Definition emptySource_4 : ImportDeclaration :=
  mkImportDeclaration
    []
    (Some KindValue) "" (36, 46) 4 4.

Definition emptySource_5 : ImportDeclaration :=
  mkImportDeclaration
    []
    (Some KindValue) "b" (47, 58) 5 5.

Definition emptySource_6 : ImportDeclaration :=
  mkImportDeclaration
    []
    (Some KindValue) "a" (59, 70) 6 6.

Definition emptySource : SourceCode :=
  mkSourceCode
  ("import 'e';"
   ++ LF ++ "import 'f';"
   ++ LF ++ "import 'g';"
   ++ LF ++ "import '';"
   ++ LF ++ "import 'b';"
   ++ LF ++ "import 'a';")%string
  [ImportStatement emptySource_1;
   ImportStatement emptySource_2;
   ImportStatement emptySource_3;
   ImportStatement emptySource_4;
   ImportStatement emptySource_5;
   ImportStatement emptySource_6].

Definition nestedImports_1 : ImportDeclaration :=
  mkImportDeclaration
    [mkSpecifier ImportDefaultSpecifier "a" (7, 8) [] []]
    (Some KindValue) "a" (0, 18) 1 1.

Definition nestedImports_2 : ImportDeclaration :=
  mkImportDeclaration
    [mkSpecifier ImportDefaultSpecifier "d" (49, 50) [] []]
    (Some KindValue) "d" (42, 60) 3 3.

Definition nestedImports_3 : ImportDeclaration :=
  mkImportDeclaration
    [mkSpecifier ImportDefaultSpecifier "c" (70, 71) [] []]
    (Some KindValue) "c" (63, 81) 4 4.

(** An import, and two imports inside a [declare module] block. *)
Definition nestedImports : SourceCode :=
  mkSourceCode
  ("import a from 'a';"
   ++ LF ++ "declare module 'm' {"
   ++ LF ++ "  import d from 'd';"
   ++ LF ++ "  import c from 'c';"
   ++ LF ++ "}")%string
  [ImportStatement nestedImports_1;
   ModuleDeclaration [ImportStatement nestedImports_2; ImportStatement nestedImports_3]].

Definition nestedOnly_1 : ImportDeclaration :=
  mkImportDeclaration
    [mkSpecifier ImportDefaultSpecifier "d" (30, 31) [] []]
    (Some KindValue) "d" (23, 41) 2 2.

Definition nestedOnly_2 : ImportDeclaration :=
  mkImportDeclaration
    [mkSpecifier ImportDefaultSpecifier "c" (51, 52) [] []]
    (Some KindValue) "c" (44, 62) 3 3.

(** A file whose only imports are inside a [declare module] block. *)
Definition nestedOnly : SourceCode :=
  mkSourceCode
  ("declare module 'm' {"
   ++ LF ++ "  import d from 'd';"
   ++ LF ++ "  import c from 'c';"
   ++ LF ++ "}")%string
  [ModuleDeclaration [ImportStatement nestedOnly_1; ImportStatement nestedOnly_2]].

Definition ignoringCase : Options :=
  {| ignoreCase := true;
     ignoreMemberSort := false;
     memberSyntaxSortOrder := [None_; All; Multiple; Single];
     typeSortStrategy := after |}.

Definition typesBefore : Options :=
  {| ignoreCase := false;
     ignoreMemberSort := false;
     memberSyntaxSortOrder := [None_; All; Multiple; Single];
     typeSortStrategy := before |}.

(** The rule on the engine of Node. *)
Definition lintV8 (config : Options) (sourceCode : SourceCode) : option (list Report) :=
  lint (@V8.sort) config sourceCode.

End Fixtures.

(** * Properties *)

(** ** The fixtures agree with their texts, and the rule does on them what
    the tests of the repository expect *)

Example fixtures_agree :
  forallb Fixtures.agrees
    [Fixtures.alphabetical; Fixtures.members; Fixtures.membersMixedCase;
     Fixtures.syntaxOrder; Fixtures.typeFirst; Fixtures.twoRuns;
     Fixtures.staleName; Fixtures.staleNameFixed; Fixtures.commented;
     Fixtures.tiedSpecifiers; Fixtures.tiedDeclarations; Fixtures.emptySource;
     Fixtures.nestedImports; Fixtures.nestedOnly] = true.
Proof. vm_compute. reflexivity. Qed.

Example test_alphabetical :
  option_map (map (fun r => (messageId r, report_fix r)))
    (Fixtures.lintV8 defaultOptions Fixtures.alphabetical)
  = Some [(alphabeticalOrder,
           FixReplace (0, 47)
             ("import A from 'bar.js';" ++ Fixtures.LF ++ "import a from 'foo.js';")%string)].
Proof. vm_compute. reflexivity. Qed.

Example test_members :
  option_map (map (fun r => (messageId r, data r, report_fix r)))
    (Fixtures.lintV8 defaultOptions Fixtures.members)
  = Some [(memberAlphabetical, MemberData "a",
           FixReplace (0, 34) "import {a, b, c, d} from 'foo.js';")].
Proof. vm_compute. reflexivity. Qed.

Example test_members_ignoreCase :
  option_map (map (fun r => (messageId r, data r, report_fix r)))
    (Fixtures.lintV8 Fixtures.ignoringCase Fixtures.membersMixedCase)
  = Some [(memberAlphabetical, MemberData "c",
           FixReplace (0, 34) "import {a, B, c, D} from 'foo.js';")].
Proof. vm_compute. reflexivity. Qed.

Example test_syntaxOrder :
  option_map (map (fun r => (messageId r, data r, report_fix r)))
    (Fixtures.lintV8 defaultOptions Fixtures.syntaxOrder)
  = Some [(wrongOrder, WrongOrderData (Some Multiple) (Some Single),
           FixReplace (0, 52)
             ("import {b, c} from 'bar.js';" ++ Fixtures.LF ++ "import a from 'foo.js';")%string)].
Proof. vm_compute. reflexivity. Qed.

Example test_typeOrder :
  option_map (map messageId) (Fixtures.lintV8 defaultOptions Fixtures.typeFirst)
    = Some [typeOrder]
  /\ Fixtures.lintV8 Fixtures.typesBefore Fixtures.typeFirst = Some [].
Proof. split; vm_compute; reflexivity. Qed.

Example test_twoRuns :
  option_map (map (fun r => (messageId r, report_fix r)))
    (Fixtures.lintV8 defaultOptions Fixtures.twoRuns)
  = Some [(alphabeticalOrder,
           FixReplace (0, 72)
             ("import B from 'bar.js';" ++ Fixtures.LF ++ "import D from 'foo.js';"
                ++ Fixtures.LF ++ Fixtures.LF ++ "import A from 'baz.js';")%string)].
Proof. vm_compute. reflexivity. Qed.

(** ** The host language *)

Lemma toLowerCase_truthy (s : string) : JS.truthy (JS.toLowerCase s) = JS.truthy s.
Proof. destruct s; reflexivity. Qed.

Lemma truthy_nonempty (s : string) : JS.truthy s = true <-> s <> "".
Proof. destruct s; simpl; split; congruence. Qed.

Lemma get_nat {A : Type} (l : list A) (k : nat) : JS.get l (Z.of_nat k) = nth_error l k.
Proof.
  unfold JS.get. destruct (Z.ltb_spec (Z.of_nat k) 0); [lia|].
  now rewrite Nat2Z.id.
Qed.

Lemma get_negative {A : Type} (l : list A) (i : Z) : (i < 0)%Z -> JS.get l i = None.
Proof. intros H. unfold JS.get. now destruct (Z.ltb_spec i 0); [|lia]. Qed.

Lemma get_Some_bounds {A : Type} (l : list A) (i : Z) (x : A) :
  JS.get l i = Some x -> (0 <= i < Z.of_nat (List.length l))%Z.
Proof.
  unfold JS.get. destruct (Z.ltb_spec i 0); [discriminate|].
  intros E. assert (Hn : nth_error l (Z.to_nat i) <> None) by congruence.
  apply nth_error_Some in Hn. lia.
Qed.

(** [findIndex] returns [-1] when no element passes, and otherwise the index
    of the first one that does. *)
Lemma findIndexFrom_spec {A : Type} (p : A -> Z -> list A -> bool) (array rest : list A) (i : Z) :
  (JS.findIndexFrom p array rest i = (-1)%Z
   /\ forall k x, nth_error rest k = Some x -> p x (i + Z.of_nat k)%Z array = false)
  \/ (exists k x,
        JS.findIndexFrom p array rest i = (i + Z.of_nat k)%Z
        /\ nth_error rest k = Some x
        /\ p x (i + Z.of_nat k)%Z array = true
        /\ forall j y, (j < k)%nat -> nth_error rest j = Some y ->
                       p y (i + Z.of_nat j)%Z array = false).
Proof.
  revert i. induction rest as [|x rest IH]; intros i; simpl.
  - left. split; [reflexivity|]. intros [|k] y; discriminate.
  - destruct (p x i array) eqn:Hp.
    + right. exists 0%nat, x. rewrite Z.add_0_r. repeat split; auto.
      intros j y Hj. lia.
    + destruct (IH (i + 1)%Z) as [[E Hall] | (k & y & E & Hk & Hpk & Hmin)].
      * left. split; [exact E|]. intros [|k] y Hy.
        -- simpl in Hy. injection Hy as <-. now rewrite Z.add_0_r.
        -- simpl in Hy. specialize (Hall k y Hy).
           now replace (i + Z.of_nat (S k))%Z with (i + 1 + Z.of_nat k)%Z by lia.
      * right. exists (S k), y.
        replace (i + Z.of_nat (S k))%Z with (i + 1 + Z.of_nat k)%Z by lia.
        repeat split; auto.
        intros [|j] z Hj Hz.
        -- simpl in Hz. injection Hz as <-. now rewrite Z.add_0_r.
        -- simpl in Hz.
           replace (i + Z.of_nat (S j))%Z with (i + 1 + Z.of_nat j)%Z by lia.
           apply Hmin; [lia|exact Hz].
Qed.

(** ** The scan of the names *)

Lemma unsortedAt_outside (names : list string) (k : nat) :
  nth_error names k = None -> unsortedAt names k = false.
Proof.
  intros H. destruct k as [|j]; simpl; [reflexivity|].
  simpl in H. rewrite H. now destruct (nth_error names j).
Qed.

Lemma unsortedAt_bounds (names : list string) (k : nat) :
  unsortedAt names k = true -> (1 <= k < List.length names)%nat.
Proof.
  intros H. split.
  - destruct k; [discriminate|lia].
  - apply nth_error_Some. intros E. apply unsortedAt_outside in E. congruence.
Qed.

(** The test of the scan, at a position of the array, is [unsortedAt]. *)
Lemma scan_test (names : list string) (k : nat) (name : string) :
  nth_error names k = Some name ->
  JS.gtUndefined (JS.get names (Z.of_nat k - 1)%Z) name = unsortedAt names k.
Proof.
  intros H. destruct k as [|j].
  - rewrite get_negative by lia. reflexivity.
  - replace (Z.of_nat (S j) - 1)%Z with (Z.of_nat j) by lia.
    rewrite get_nat. unfold unsortedAt. rewrite H.
    destruct (nth_error names j); reflexivity.
Qed.

Lemma firstUnsorted_spec (ignoreCase : bool) (importSpecifiers : list Specifier) :
  let names := map (fun s => getSortableName s ignoreCase) importSpecifiers in
  (firstUnsorted ignoreCase importSpecifiers = (-1)%Z
   /\ forall k, unsortedAt names k = false)
  \/ (exists k,
        firstUnsorted ignoreCase importSpecifiers = Z.of_nat k
        /\ unsortedAt names k = true
        /\ forall j, (j < k)%nat -> unsortedAt names j = false).
Proof.
  intros names. unfold firstUnsorted, JS.findIndex. fold names.
  destruct (findIndexFrom_spec
              (fun name index array => JS.gtUndefined (JS.get array (index - 1)%Z) name)
              names names 0%Z) as [[E Hall] | (k & x & E & Hk & Hp & Hmin)].
  - left. split; [exact E|]. intros k.
    destruct (nth_error names k) as [name|] eqn:Hk.
    + rewrite <- (scan_test names k name Hk). exact (Hall k name Hk).
    + now apply unsortedAt_outside.
  - right. exists k. split; [exact E|]. split.
    + rewrite <- (scan_test names k x Hk). exact Hp.
    + intros j Hj. destruct (nth_error names j) as [name|] eqn:Hnj.
      * rewrite <- (scan_test names j name Hnj). exact (Hmin j name Hj Hnj).
      * now apply unsortedAt_outside.
Qed.

(** When the scan finds a position, the specifier there and the one before
    it exist. *)
Lemma firstUnsorted_in_bounds (ignoreCase : bool) (importSpecifiers : list Specifier) :
  firstUnsorted ignoreCase importSpecifiers <> (-1)%Z ->
  exists (k : nat) (previous flagged : Specifier),
    firstUnsorted ignoreCase importSpecifiers = Z.of_nat (S k)
    /\ nth_error importSpecifiers k = Some previous
    /\ nth_error importSpecifiers (S k) = Some flagged.
Proof.
  intros Hne.
  destruct (firstUnsorted_spec ignoreCase importSpecifiers) as [[E _] | (k & E & Hk & _)];
    [congruence|].
  apply unsortedAt_bounds in Hk. rewrite length_map in Hk.
  destruct k as [|k]; [lia|].
  destruct (nth_error importSpecifiers k) as [previous|] eqn:E1;
    [|apply nth_error_None in E1; lia].
  destruct (nth_error importSpecifiers (S k)) as [flagged|] eqn:E2;
    [|apply nth_error_None in E2; lia].
  exists k, previous, flagged. auto.
Qed.

(** ** The reports of one call of the listener *)

Lemma reported_app (m : MessageIds) (r1 r2 : list Report) :
  reported m (r1 ++ r2) = reported m r1 || reported m r2.
Proof. unfold reported. apply existsb_app. Qed.

Lemma MessageIds_eqb_eq (a b : MessageIds) : MessageIds_eqb a b = true <-> a = b.
Proof. destruct a, b; simpl; split; congruence. Qed.

Lemma reported_iff (m : MessageIds) (reports : list Report) :
  reported m reports = true <-> exists r, In r reports /\ messageId r = m.
Proof.
  unfold reported. rewrite existsb_exists.
  split; intros (r & Hin & H); exists r; split; auto; now apply MessageIds_eqb_eq.
Qed.

Lemma reported_other (m m' : MessageIds) (reports : list Report) :
  (forall r, In r reports -> messageId r = m') -> m <> m' -> reported m reports = false.
Proof.
  intros Hall Hne. destruct (reported m reports) eqn:E; [|reflexivity].
  apply reported_iff in E. destruct E as (r & Hin & Hr).
  rewrite (Hall r Hin) in Hr. congruence.
Qed.

Section ListenerFacts.

Variable Array_sort : forall A : Type, (A -> A -> Z) -> list A -> list A.
Variable config : Options.
Variable sourceCode : SourceCode.


(** The check of the members does not throw.  It makes no report, or
    one report on the first unsorted specifier. *)
Lemma checkMembers_spec (initialSource : string) (node : ImportDeclaration) :
  (checkMembers Array_sort config sourceCode initialSource node = Some []
   /\ (ignoreMemberSort config = true
       \/ firstUnsorted (ignoreCase config) (namedSpecifiers node) = (-1)%Z))
  \/ (exists (k : nat) (previous flagged : Specifier),
        ignoreMemberSort config = false
        /\ firstUnsorted (ignoreCase config) (namedSpecifiers node) = Z.of_nat (S k)
        /\ nth_error (namedSpecifiers node) k = Some previous
        /\ nth_error (namedSpecifiers node) (S k) = Some flagged
        /\ checkMembers Array_sort config sourceCode initialSource node
           = Some [ {| report_node := OnSpecifier flagged;
                       messageId := memberAlphabetical;
                       data := MemberData (local_name flagged);
                       report_fix :=
                         if hasComments (namedSpecifiers node) then FixNull
                         else replaceAllDeclarations Array_sort config sourceCode
                                initialSource |} ]).
Proof.
  unfold checkMembers.
  destruct (ignoreMemberSort config) eqn:Hi; simpl; [left; auto|].
  destruct (Z.eqb_spec (firstUnsorted (ignoreCase config) (namedSpecifiers node)) (-1)) as [E|E];
    simpl; [left; auto|].
  right. destruct (firstUnsorted_in_bounds _ _ E) as (k & previous & flagged & Ek & Hp & Hf).
  exists k, previous, flagged. repeat split; auto.
  rewrite Ek, get_nat, Hf. reflexivity.
Qed.

Lemma checkMembers_messages (initialSource : string) (node : ImportDeclaration) :
  exists reports,
    checkMembers Array_sort config sourceCode initialSource node = Some reports
    /\ forall r, In r reports -> messageId r = memberAlphabetical.
Proof.
  destruct (checkMembers_spec initialSource node)
    as [[E _] | (k & previous & flagged & _ & _ & _ & _ & E)]; rewrite E; eexists; split;
    try reflexivity; simpl; intros r Hr.
  - contradiction.
  - destruct Hr as [<-|[]]. reflexivity.
Qed.

(** The comparison with the previous declaration makes at most one report,
    never on the members. *)
Lemma comparePrevious_messages (initialSource : string) (A B : ImportDeclaration) :
  reported memberAlphabetical
    (comparePrevious Array_sort config sourceCode initialSource A B) = false.
Proof.
  unfold comparePrevious.
  repeat match goal with |- context [if ?c then _ else _] => destruct c end; reflexivity.
Qed.


(** A call of the listener in any state: it does not throw, and the report
    on the members, if any, is the one of [checkMembers]. *)
Lemma onImportDeclaration_total (st : State) (node : ImportDeclaration) :
  exists order members,
    onImportDeclaration Array_sort config sourceCode st node
    = Some ({| previousDeclaration := Some node;
               initialSource := Some (readSource sourceCode st) |},
            order ++ members)
    /\ checkMembers Array_sort config sourceCode (readSource sourceCode st) node = Some members
    /\ reported memberAlphabetical order = false.
Proof.
  destruct (checkMembers_messages (readSource sourceCode st) node) as (members & E & Hall).
  unfold onImportDeclaration.
  rewrite E. simpl.
  eexists _, members. split; [reflexivity|]. split; [reflexivity|].
  destruct (previousDeclaration st) as [previous|]; [|reflexivity].
  destruct (isLineBetween previous node); simpl; [reflexivity|].
  apply comparePrevious_messages.
Qed.

End ListenerFacts.

(** ** The index of a syntax in the configured order *)

Lemma MemberSyntaxSortOrder_eqb_eq (a b : MemberSyntaxSortOrder) :
  MemberSyntaxSortOrder_eqb a b = true <-> a = b.
Proof. destruct a, b; simpl; split; congruence. Qed.

Lemma indexOfFrom_In (x : MemberSyntaxSortOrder) (l : list MemberSyntaxSortOrder) (i : Z) :
  In x l ->
  exists k, JS.indexOfFrom MemberSyntaxSortOrder_eqb x l i = (i + Z.of_nat k)%Z
            /\ nth_error l k = Some x.
Proof.
  revert i. induction l as [|y l IH]; intros i Hin; [contradiction|].
  simpl. destruct (MemberSyntaxSortOrder_eqb y x) eqn:E.
  - apply MemberSyntaxSortOrder_eqb_eq in E. subst y.
    exists 0%nat. split; [lia|reflexivity].
  - destruct Hin as [->|Hin].
    + assert (MemberSyntaxSortOrder_eqb x x = true) by now apply MemberSyntaxSortOrder_eqb_eq.
      congruence.
    + destruct (IH (i + 1)%Z Hin) as (k & Ek & Hk).
      exists (S k). split; [rewrite Ek; lia|exact Hk].
Qed.

(** An entry read at the index of a syntax that is in the order is that
    syntax. *)
Lemma get_indexOf (order : list MemberSyntaxSortOrder) (x : MemberSyntaxSortOrder) :
  In x order -> JS.get order (JS.indexOf MemberSyntaxSortOrder_eqb order x) = Some x.
Proof.
  intros Hin. unfold JS.indexOf.
  destruct (indexOfFrom_In x order 0%Z Hin) as (k & Ek & Hk).
  rewrite Ek, Z.add_0_l, get_nat. exact Hk.
Qed.

Lemma indexOfFrom_lower (x : MemberSyntaxSortOrder) (l : list MemberSyntaxSortOrder) (i : Z) :
  (0 <= i)%Z -> (-1 <= JS.indexOfFrom MemberSyntaxSortOrder_eqb x l i)%Z.
Proof.
  revert i. induction l as [|y l IH]; intros i Hi; simpl; [lia|].
  destruct (MemberSyntaxSortOrder_eqb y x); [lia|]. apply IH. lia.
Qed.

(** An order that the schema accepts has the four syntaxes. *)
Lemma schemaValid_In (config : Options) (x : MemberSyntaxSortOrder) :
  schemaValid config -> In x (memberSyntaxSortOrder config).
Proof.
  intros [Hnd Hlen].
  assert (Hincl : incl [None_; All; Multiple; Single] (memberSyntaxSortOrder config)).
  { apply NoDup_length_incl; [exact Hnd|rewrite Hlen; simpl; lia|].
    intros y _. destruct y; simpl; auto. }
  apply Hincl. destruct x; simpl; auto.
Qed.

Lemma TypeSortStrategy_eqb_eq (a b : TypeSortStrategy) :
  TypeSortStrategy_eqb a b = true <-> a = b.
Proof. destruct a, b; simpl; split; congruence. Qed.

(** ** The comparison of a declaration with the previous one *)

Section OrderChecks.

Variable Array_sort : forall A : Type, (A -> A -> Z) -> list A -> list A.
Variable config : Options.
Variable sourceCode : SourceCode.





Lemma normalizedFirstName_truthy (node : ImportDeclaration) :
  JS.truthy (normalizedFirstName config node) = JS.truthy (getFirstLocalMemberName node).
Proof.
  unfold normalizedFirstName. destruct (ignoreCase config); [|reflexivity].
  apply toLowerCase_truthy.
Qed.


End OrderChecks.

(** ** The check of the named specifiers *)

Lemma firstUnsorted_found (ignoreCase : bool) (importSpecifiers : list Specifier) (k : nat) :
  firstUnsorted ignoreCase importSpecifiers = Z.of_nat k ->
  let names := map (fun s => getSortableName s ignoreCase) importSpecifiers in
  unsortedAt names k = true /\ forall j, (j < k)%nat -> unsortedAt names j = false.
Proof.
  intros E names.
  destruct (firstUnsorted_spec ignoreCase importSpecifiers) as [[E' _] | (k' & E' & Hk & Hmin)].
  - lia.
  - assert (k' = k) by lia. subst k'. auto.
Qed.




Section MemberCheck.

Variable Array_sort : forall A : Type, (A -> A -> Z) -> list A -> list A.
Variable config : Options.
Variable sourceCode : SourceCode.



(** C10.  The scan never flags the first named specifier: the test at
    position 0 reads [undefined] and is false.  When the scan flags a
    position, the position is at least 1, and the specifier there, the one
    before it, the first and the last of the named specifiers all exist, so
    the listener does not throw on them; a declaration with no or one named
    specifier has no [memberAlphabetical] report. *)
Theorem first_specifier_never_flagged (st : State) (node : ImportDeclaration) :
  let importSpecifiers := namedSpecifiers node in
  let firstUnsortedIndex := firstUnsorted (ignoreCase config) importSpecifiers in
  (forall names name, JS.gtUndefined (JS.get names (0 - 1)%Z) name = false)
  /\ firstUnsortedIndex <> 0%Z
  /\ (firstUnsortedIndex <> (-1)%Z ->
      (1 <= firstUnsortedIndex)%Z
      /\ exists flagged previous first last,
           JS.get importSpecifiers firstUnsortedIndex = Some flagged
           /\ JS.get importSpecifiers (firstUnsortedIndex - 1)%Z = Some previous
           /\ JS.get importSpecifiers 0%Z = Some first
           /\ JS.get importSpecifiers (Z.of_nat (List.length importSpecifiers) - 1)%Z
              = Some last)
  /\ exists st' reports,
       onImportDeclaration Array_sort config sourceCode st node = Some (st', reports)
       /\ (forall r, In r reports -> messageId r = memberAlphabetical ->
             (1 <= firstUnsortedIndex)%Z
             /\ exists flagged,
                  JS.get importSpecifiers firstUnsortedIndex = Some flagged
                  /\ report_node r = OnSpecifier flagged)
       /\ ((List.length importSpecifiers <= 1)%nat ->
           reported memberAlphabetical reports = false).
Proof.
  intros importSpecifiers firstUnsortedIndex.
  assert (Hbounds : firstUnsortedIndex <> (-1)%Z ->
      (1 <= firstUnsortedIndex)%Z
      /\ exists flagged previous first last,
           JS.get importSpecifiers firstUnsortedIndex = Some flagged
           /\ JS.get importSpecifiers (firstUnsortedIndex - 1)%Z = Some previous
           /\ JS.get importSpecifiers 0%Z = Some first
           /\ JS.get importSpecifiers (Z.of_nat (List.length importSpecifiers) - 1)%Z
              = Some last).
  { intros Hne.
    destruct (firstUnsorted_in_bounds _ _ Hne) as (k & previous & flagged & Ek & Hp & Hf).
    fold importSpecifiers firstUnsortedIndex in Ek, Hp, Hf.
    split; [lia|].
    assert (Hlen : (S k < List.length importSpecifiers)%nat)
      by (apply nth_error_Some; congruence).
    destruct (nth_error importSpecifiers 0) as [first|] eqn:E0;
      [|apply nth_error_None in E0; lia].
    destruct (nth_error importSpecifiers (List.length importSpecifiers - 1)) as [last|] eqn:E1;
      [|apply nth_error_None in E1; lia].
    exists flagged, previous, first, last.
    rewrite Ek.
    replace (Z.of_nat (S k) - 1)%Z with (Z.of_nat k) by lia.
    replace (Z.of_nat (List.length importSpecifiers) - 1)%Z
      with (Z.of_nat (List.length importSpecifiers - 1)) by lia.
    change 0%Z with (Z.of_nat 0). rewrite !get_nat. auto. }
  split; [intros names name; now rewrite get_negative by lia|].
  split; [|split; [exact Hbounds|]].
  { intros E0. destruct (firstUnsorted_found _ _ 0%nat E0) as [H _]. discriminate. }
  destruct (onImportDeclaration_total Array_sort config sourceCode st node)
    as (order & members & E & Hmembers & Horder).
  eexists _, _. split; [exact E|].
  destruct (checkMembers_spec Array_sort config sourceCode (readSource sourceCode st) node)
    as [[E' Hwhy] | (k & previous & flagged & Hi & Ek & Hp & Hf & E')];
    rewrite E' in Hmembers; injection Hmembers as <-.
  - split.
    + intros r Hin Hr. rewrite app_nil_r in Hin.
      assert (reported memberAlphabetical order = true) by (apply reported_iff; eauto).
      congruence.
    + intros _. now rewrite reported_app, Horder.
  - fold importSpecifiers firstUnsortedIndex in Ek, Hp, Hf.
    split.
    + intros r Hin Hr. apply in_app_or in Hin. destruct Hin as [Hin|[<-|[]]].
      * assert (reported memberAlphabetical order = true) by (apply reported_iff; eauto).
        congruence.
      * split; [lia|]. exists flagged. rewrite Ek, get_nat. auto.
    + intros Hlen.
      assert (S k < List.length importSpecifiers)%nat by (apply nth_error_Some; congruence).
      lia.
Qed.

End MemberCheck.

(** ** The sort of the engine returns the elements it was given *)

Module V8Facts.

Section Sort.
Context {A : Type}.
Variable comparefn : A -> A -> Z.

Lemma insert_permutation (pivot : A) (sorted : list A) :
  Permutation (V8.insert comparefn pivot sorted) (pivot :: sorted).
Proof.
  unfold V8.insert. symmetry.
  etransitivity; [|apply Permutation_middle].
  now rewrite firstn_skipn.
Qed.

Lemma BinaryInsertionSort_permutation (pending sorted : list A) :
  Permutation (V8.BinaryInsertionSort comparefn sorted pending) (sorted ++ pending).
Proof.
  revert sorted. induction pending as [|pivot pending IH]; intros sorted; simpl.
  - now rewrite app_nil_r.
  - rewrite IH, insert_permutation. apply Permutation_middle.
Qed.

Lemma CountAndMakeRun_permutation (array : list A) :
  Permutation (fst (V8.CountAndMakeRun comparefn array)) array.
Proof.
  destruct array as [|x [|y rest]]; simpl; try reflexivity.
  destruct (comparefn y x <? 0)%Z; [|reflexivity].
  cbn [fst].
  set (n := V8.runTail comparefn true y rest).
  change (Permutation (rev (firstn (S (S n)) (x :: y :: rest))
                         ++ skipn (S (S n)) (x :: y :: rest)) (x :: y :: rest)).
  rewrite <- (firstn_skipn (S (S n)) (x :: y :: rest)) at 3.
  apply Permutation_app_tail. symmetry. apply Permutation_rev.
Qed.

Lemma sort_permutation (array : list A) :
  Permutation (V8.sort comparefn array) array.
Proof.
  unfold V8.sort.
  pose proof (CountAndMakeRun_permutation array) as H.
  destruct (V8.CountAndMakeRun comparefn array) as [work runLength]. simpl in H.
  rewrite BinaryInsertionSort_permutation, firstn_skipn. exact H.
Qed.

(** The binary search has the fuel it needs: more fuel does not change
    the place it finds. *)
Lemma search_fuel (fuel : nat) (pivot : A) (sorted : list A) (left right : nat) :
  (right - left <= fuel)%nat ->
  V8.search comparefn (S fuel) pivot sorted left right
  = V8.search comparefn fuel pivot sorted left right.
Proof.
  revert left right. induction fuel as [|fuel IH]; intros left right Hfuel.
  - simpl. destruct (Nat.ltb_spec left right); [lia|reflexivity].
  - change (V8.search comparefn (S (S fuel)) pivot sorted left right)
      with (if (left <? right)%nat then
              match nth_error sorted (left + Nat.div2 (right - left)) with
              | None => left
              | Some x =>
                  if (comparefn pivot x <? 0)%Z
                  then V8.search comparefn (S fuel) pivot sorted left
                         (left + Nat.div2 (right - left))
                  else V8.search comparefn (S fuel) pivot sorted
                         (left + Nat.div2 (right - left) + 1) right
              end
            else left).
    change (V8.search comparefn (S fuel) pivot sorted left right)
      with (if (left <? right)%nat then
              match nth_error sorted (left + Nat.div2 (right - left)) with
              | None => left
              | Some x =>
                  if (comparefn pivot x <? 0)%Z
                  then V8.search comparefn fuel pivot sorted left
                         (left + Nat.div2 (right - left))
                  else V8.search comparefn fuel pivot sorted
                         (left + Nat.div2 (right - left) + 1) right
              end
            else left).
    destruct (Nat.ltb_spec left right) as [Hlt|]; [|reflexivity].
    destruct (nth_error sorted (left + Nat.div2 (right - left))); [|reflexivity].
    assert (Hhalf : (Nat.div2 (right - left) < right - left)%nat)
      by (apply Nat.lt_div2; lia).
    revert Hhalf. generalize (Nat.div2 (right - left)) as half. intros half Hhalf.
    destruct (comparefn pivot a <? 0)%Z; apply IH; lia.
Qed.

End Sort.

Theorem sort_permutes : sortPermutes (@V8.sort).
Proof. intros A comparefn array. apply sort_permutation. Qed.

End V8Facts.

(** ** The sections of the fix *)

Lemma lastOf_app_cons {A : Type} (l l' : list A) (x : A) :
  lastOf (l ++ x :: l') = lastOf (x :: l').
Proof.
  induction l as [|y l IH]; [reflexivity|].
  simpl. rewrite IH. destruct (l ++ x :: l') eqn:E; [|reflexivity].
  destruct l; discriminate.
Qed.

Lemma lastOf_snoc {A : Type} (l : list A) (x : A) : lastOf (l ++ [x]) = Some x.
Proof. now rewrite lastOf_app_cons. Qed.

Lemma lastOf_nil {A : Type} (l : list A) : lastOf l = None -> l = [].
Proof.
  induction l as [|x l IH]; [reflexivity|].
  simpl. destruct l; [discriminate|]. intros H. specialize (IH H). discriminate.
Qed.

(** The grouping by [reduce] makes the sections of [groups]. *)
Lemma fold_pushSection_groups (rest : list Rich) (finished : list (list Rich))
    (lastSection : list Rich) :
  (let (finished', lastSection') := fold_left pushSection rest (finished, lastSection) in
   finished' ++ [lastSection'])
  = finished ++ groups lastSection rest.
Proof.
  revert finished lastSection.
  induction rest as [|current rest IH]; intros finished lastSection; [reflexivity|].
  cbn [fold_left groups]. unfold pushSection at 2.
  destruct (lastOf lastSection) as [lastFixed|]; [|apply IH].
  destruct (isLineBetween (fst lastFixed) (fst current)).
  - rewrite IH, <- app_assoc. reflexivity.
  - apply IH.
Qed.

Lemma sectionsOf_groups (fixed : list Rich) : sectionsOf fixed = groups [] fixed.
Proof. unfold sectionsOf. apply (fold_pushSection_groups fixed [] []). Qed.

(** The sections, one after the other, are the declarations in the order of
    the source. *)
Lemma concat_groups (rest lastSection : list Rich) :
  List.concat (groups lastSection rest) = lastSection ++ rest.
Proof.
  revert lastSection. induction rest as [|current rest IH]; intros lastSection.
  - simpl. now rewrite !app_nil_r.
  - cbn [groups]. destruct (lastOf lastSection) as [lastFixed|] eqn:E.
    + destruct (isLineBetween (fst lastFixed) (fst current)).
      * cbn [List.concat]. now rewrite IH.
      * now rewrite IH, <- app_assoc.
    + apply lastOf_nil in E. subst. now rewrite IH.
Qed.

(** A line between two declarations that follow each other ends a section
    and starts another one. *)
Lemma groups_split (l1 l2 lastSection : list Rich) (a b : Rich) :
  lastOf (lastSection ++ l1) = Some a ->
  isLineBetween (fst a) (fst b) = true ->
  groups lastSection (l1 ++ b :: l2) = groups lastSection l1 ++ groups [b] l2.
Proof.
  revert lastSection. induction l1 as [|current l1 IH]; intros lastSection Hlast Hgap.
  - rewrite app_nil_r in Hlast. cbn [app groups]. now rewrite Hlast, Hgap.
  - cbn [app groups]. destruct (lastOf lastSection) as [lastFixed|].
    + destruct (isLineBetween (fst lastFixed) (fst current)).
      * cbn [app]. f_equal. apply IH; [|exact Hgap].
        change ([current] ++ l1) with (nil ++ current :: l1).
        rewrite lastOf_app_cons. now rewrite lastOf_app_cons in Hlast.
      * apply IH; [|exact Hgap]. now rewrite <- app_assoc.
    + apply IH; [|exact Hgap].
      change ([current] ++ l1) with (nil ++ current :: l1).
      rewrite lastOf_app_cons. now rewrite lastOf_app_cons in Hlast.
Qed.

Lemma groups_first (rest lastSection : list Rich) :
  lastSection <> [] ->
  exists more sections, groups lastSection rest = (lastSection ++ more) :: sections.
Proof.
  revert lastSection. induction rest as [|current rest IH]; intros lastSection Hne.
  - exists [], []. now rewrite app_nil_r.
  - cbn [groups]. destruct (lastOf lastSection) as [lastFixed|] eqn:E.
    + destruct (isLineBetween (fst lastFixed) (fst current)).
      * exists [], (groups [current] rest). now rewrite app_nil_r.
      * destruct (IH (lastSection ++ [current])) as (more & sections & E').
        { destruct lastSection; discriminate. }
        exists (current :: more), sections. rewrite E', <- app_assoc. reflexivity.
    + apply lastOf_nil in E. contradiction.
Qed.

Lemma adjacentAll_snoc (run : list Rich) (x current : Rich) :
  adjacentAll run ->
  lastOf run = Some x ->
  isLineBetween (fst x) (fst current) = false ->
  adjacentAll (run ++ [current]).
Proof.
  induction run as [|y run IH]; intros Hadj Hlast Hline; [discriminate|].
  destruct run as [|z run].
  - simpl in Hlast. injection Hlast as ->. simpl. auto.
  - destruct Hadj as [Hyz Hadj]. split; [exact Hyz|]. apply IH; auto.
Qed.

(** No line is between two declarations of one section. *)
Lemma groups_adjacent (rest lastSection : list Rich) :
  adjacentAll lastSection -> Forall adjacentAll (groups lastSection rest).
Proof.
  revert lastSection. induction rest as [|current rest IH]; intros lastSection Hadj.
  - repeat constructor. exact Hadj.
  - cbn [groups]. destruct (lastOf lastSection) as [lastFixed|] eqn:E.
    + destruct (isLineBetween (fst lastFixed) (fst current)) eqn:Hline.
      * constructor; [exact Hadj|]. apply IH. simpl. exact I.
      * apply IH. eapply adjacentAll_snoc; eauto.
    + apply IH. simpl. exact I.
Qed.

(** A line is between two sections that follow each other. *)
Lemma groups_separated (rest lastSection : list Rich) :
  separated (groups lastSection rest).
Proof.
  revert lastSection. induction rest as [|current rest IH]; intros lastSection.
  - simpl. exact I.
  - cbn [groups]. destruct (lastOf lastSection) as [lastFixed|] eqn:E; [|apply IH].
    destruct (isLineBetween (fst lastFixed) (fst current)) eqn:Hline; [|apply IH].
    specialize (IH [current]).
    destruct (groups_first rest [current]) as (more & sections & E'); [discriminate|].
    rewrite E' in *. split; [|exact IH].
    exists lastFixed, current. auto.
Qed.

(** ** The fix does not throw *)

Lemma get_in_bounds {A : Type} (l : list A) (i : Z) :
  (0 <= i < Z.of_nat (List.length l))%Z -> exists x, JS.get l i = Some x.
Proof.
  intros H. unfold JS.get. destruct (Z.ltb_spec i 0); [lia|].
  destruct (nth_error l (Z.to_nat i)) as [x|] eqn:E; [eauto|].
  apply nth_error_None in E. lia.
Qed.

Lemma mapM_fst {A : Type} (f : A * string -> option (A * string)) (l : list (A * string)) :
  (forall n, exists text, f n = Some (fst n, text)) ->
  exists fixed, mapM f l = Some fixed /\ map fst fixed = map fst l.
Proof.
  intros Hf. induction l as [|n l (fixed & E & Hfst)].
  - exists []. auto.
  - destruct (Hf n) as (text & En). exists ((fst n, text) :: fixed).
    simpl. rewrite En, E. simpl. now rewrite Hfst.
Qed.

Section FixFacts.

Variable Array_sort : forall A : Type, (A -> A -> Z) -> list A -> list A.
Hypothesis Array_sort_permutes : sortPermutes Array_sort.
Variable config : Options.

Lemma specifierTexts_total (initial : string) (importSpecifiers sorted : list Specifier)
    (index : Z) (sourceText : string) :
  (0 <= index)%Z ->
  (index + Z.of_nat (List.length sorted) <= Z.of_nat (List.length importSpecifiers))%Z ->
  exists text, specifierTexts initial importSpecifiers sorted index sourceText = Some text.
Proof.
  revert index sourceText.
  induction sorted as [|specifier sorted IH]; intros index sourceText H0 Hlen.
  - simpl. eauto.
  - cbn [specifierTexts]. cbn [List.length] in Hlen.
    destruct (Z.eqb_spec index (Z.of_nat (List.length importSpecifiers) - 1)) as [E|E].
    + cbn [bind]. apply IH; lia.
    + destruct (get_in_bounds importSpecifiers index) as (this & Ethis); [lia|].
      destruct (get_in_bounds importSpecifiers (index + 1)) as (next & Enext); [lia|].
      rewrite Ethis, Enext. cbn [bind]. apply IH; lia.
Qed.

(** The text of a declaration is rebuilt without an exception, and the
    declaration stays with its text. *)
Lemma fixSpecifiers_total (initial : string) (n : Rich) :
  exists text, fixSpecifiers Array_sort config initial n = Some (fst n, text).
Proof.
  unfold fixSpecifiers.
  destruct (ignoreMemberSort config); cbn [negb];
    [exists (snd n); now destruct n|].
  destruct (Z.eqb_spec (firstUnsorted (ignoreCase config) (namedSpecifiers (fst n))) (-1))
    as [E|E]; cbn [negb]; [exists (snd n); now destruct n|].
  destruct (firstUnsorted_in_bounds _ _ E) as (k & previous & flagged & _ & _ & Hf).
  assert (Hlen : (S k < List.length (namedSpecifiers (fst n)))%nat)
    by (apply nth_error_Some; congruence).
  destruct (get_in_bounds (namedSpecifiers (fst n)) 0) as (first & E0); [lia|].
  destruct (get_in_bounds (namedSpecifiers (fst n))
              (Z.of_nat (List.length (namedSpecifiers (fst n))) - 1)) as (last & E1); [lia|].
  rewrite E0, E1. cbn [bind].
  destruct (specifierTexts_total initial (namedSpecifiers (fst n))
              (Array_sort Specifier (compareSpecifiers config) (namedSpecifiers (fst n)))
              0 "") as (between & Eb); [lia| |].
  { rewrite (Permutation_length (Array_sort_permutes _ _ _)). lia. }
  rewrite Eb. cbn [bind]. eauto.
Qed.

Lemma fixed_total (initial : string) (nodes : list ImportDeclaration) :
  exists fixed,
    mapM (fixSpecifiers Array_sort config initial) (rich initial nodes) = Some fixed
    /\ map fst fixed = nodes.
Proof.
  destruct (mapM_fst (fixSpecifiers Array_sort config initial) (rich initial nodes)
              (fixSpecifiers_total initial)) as (fixed & E & Hfst).
  exists fixed. split; [exact E|]. rewrite Hfst. unfold rich.
  rewrite map_map. simpl. apply map_id.
Qed.

(** Sorting the sections moves no declaration out of its section. *)
Lemma sortSections_permutation (sections : list (list Rich)) :
  Permutation (sortSections Array_sort config sections) (List.concat sections).
Proof.
  unfold sortSections. induction sections as [|section sections IH]; [reflexivity|].
  simpl. apply Permutation_app; [apply Array_sort_permutes|exact IH].
Qed.

Lemma sortSections_app (s1 s2 : list (list Rich)) :
  sortSections Array_sort config (s1 ++ s2)
  = sortSections Array_sort config s1 ++ sortSections Array_sort config s2.
Proof. unfold sortSections. apply flat_map_app. Qed.

(** C8.  The fix groups the declarations, taken in the order of the source,
    into sections: no line is between two declarations of a section, and a
    line is between each section and the next one.  It sorts each section
    by itself and puts the sorted sections one after the other in their
    order.  So, wherever a line is between two declarations that follow
    each other, the declarations before the line all stay before the
    declarations after the line. *)
Theorem run_isolation (initial : string) (nodes : list ImportDeclaration) :
  exists fixed,
    mapM (fixSpecifiers Array_sort config initial) (rich initial nodes) = Some fixed
    /\ map fst fixed = nodes
    /\ List.concat (sectionsOf fixed) = fixed
    /\ Forall adjacentAll (sectionsOf fixed)
    /\ separated (sectionsOf fixed)
    /\ sortedNodes Array_sort config initial nodes
       = Some (flat_map (Array_sort Rich (compareDeclarations config)) (sectionsOf fixed))
    /\ sortAndFixAllNodes Array_sort config initial nodes
       = Some (joinTexts (betweens initial nodes)
                 (map snd (flat_map (Array_sort Rich (compareDeclarations config))
                             (sectionsOf fixed))) 0%Z "")
    /\ (forall section, In section (sectionsOf fixed) ->
          Permutation (Array_sort Rich (compareDeclarations config) section) section)
    /\ (forall pre a b post,
          nodes = pre ++ a :: b :: post ->
          isLineBetween a b = true ->
          exists out1 out2,
            sortedNodes Array_sort config initial nodes = Some (out1 ++ out2)
            /\ Permutation (map fst out1) (pre ++ [a])
            /\ Permutation (map fst out2) (b :: post)).
Proof.
  destruct (fixed_total initial nodes) as (fixed & E & Hfst).
  exists fixed. split; [exact E|]. split; [exact Hfst|].
  assert (Hsorted : sortedNodes Array_sort config initial nodes
                    = Some (sortSections Array_sort config (sectionsOf fixed))).
  { unfold sortedNodes. rewrite E. reflexivity. }
  split; [rewrite sectionsOf_groups; apply concat_groups|].
  split; [rewrite sectionsOf_groups; apply groups_adjacent; exact I|].
  split; [rewrite sectionsOf_groups; apply groups_separated|].
  split; [exact Hsorted|].
  split; [unfold sortAndFixAllNodes; rewrite Hsorted; reflexivity|].
  split; [intros section _; apply Array_sort_permutes|].
  intros pre a b post Hnodes Hgap.
  rewrite Hsorted.
  (* the declarations of [fixed] before and after the line *)
  assert (Hsplit : exists f1 fa fb f2,
             fixed = f1 ++ fa :: fb :: f2
             /\ map fst f1 = pre /\ fst fa = a /\ fst fb = b /\ map fst f2 = post).
  { rewrite Hnodes in Hfst. clear - Hfst.
    apply map_eq_app in Hfst. destruct Hfst as (f1 & r1 & -> & H1 & Hr1).
    destruct r1 as [|fa [|fb f2]]; try discriminate.
    simpl in Hr1. injection Hr1 as Ha Hb H2.
    exists f1, fa, fb, f2. auto. }
  destruct Hsplit as (f1 & fa & fb & f2 & -> & H1 & Ha & Hb & H2).
  rewrite sectionsOf_groups.
  replace (f1 ++ fa :: fb :: f2) with ((f1 ++ [fa]) ++ fb :: f2)
    by (rewrite <- app_assoc; reflexivity).
  rewrite (groups_split (f1 ++ [fa]) f2 [] fa fb);
    [|apply lastOf_snoc|rewrite Ha, Hb; exact Hgap].
  rewrite sortSections_app.
  eexists _, _. split; [reflexivity|]. split.
  - rewrite sortSections_permutation, concat_groups. unfold Rich in *. simpl.
    rewrite map_app, H1. simpl. now rewrite Ha.
  - rewrite sortSections_permutation, concat_groups. unfold Rich in *. simpl.
    now rewrite Hb, H2.
Qed.

End FixFacts.

(** ** The range of the fixes *)

Lemma get_last {A : Type} (l : list A) :
  l <> [] -> JS.get l (Z.of_nat (List.length l) - 1)%Z = lastOf l.
Proof.
  intros Hne.
  replace (Z.of_nat (List.length l) - 1)%Z with (Z.of_nat (List.length l - 1))
    by (destruct l; [contradiction|cbn [List.length]; lia]).
  rewrite get_nat. clear Hne.
  induction l as [|x l IH]; [reflexivity|].
  destruct l as [|y l]; [reflexivity|].
  change (lastOf (x :: y :: l)) with (lastOf (y :: l)). rewrite <- IH.
  simpl. now rewrite Nat.sub_0_r.
Qed.

Lemma get_first {A : Type} (l : list A) : JS.get l 0%Z = hd_error l.
Proof. change 0%Z with (Z.of_nat 0). rewrite get_nat. now destruct l. Qed.

Section FixRange.

Variable Array_sort : forall A : Type, (A -> A -> Z) -> list A -> list A.
Hypothesis Array_sort_permutes : sortPermutes Array_sort.
Variable config : Options.
Variable sourceCode : SourceCode.

Lemma sortAndFixAllNodes_total (initial : string) (nodes : list ImportDeclaration) :
  exists text, sortAndFixAllNodes Array_sort config initial nodes = Some text.
Proof.
  destruct (fixed_total Array_sort Array_sort_permutes config initial nodes)
    as (fixed & E & _).
  unfold sortAndFixAllNodes, sortedNodes. rewrite E. cbn [bind]. eauto.
Qed.

(** The fix of a file that has an import replaces the range from its first
    import to its last one. *)
Lemma replaceAllDeclarations_spec (initial : string) (span : nat * nat) :
  spanOf (allDeclarations sourceCode) = Some span ->
  exists text,
    sortAndFixAllNodes Array_sort config initial (allDeclarations sourceCode) = Some text
    /\ replaceAllDeclarations Array_sort config sourceCode initial = FixReplace span text.
Proof.
  unfold spanOf. intros Hspan.
  destruct (sortAndFixAllNodes_total initial (allDeclarations sourceCode)) as (text & E).
  exists text. split; [exact E|].
  unfold replaceAllDeclarations. rewrite E, get_first.
  destruct (hd_error (allDeclarations sourceCode)) as [first|] eqn:Hfirst; [|discriminate].
  rewrite get_last by (intros Hnil; rewrite Hnil in Hfirst; discriminate).
  cbn [bind] in Hspan.
  destruct (lastOf (allDeclarations sourceCode)) as [last|]; [|discriminate].
  cbn [bind] in Hspan. now injection Hspan as <-.
Qed.

Lemma comparePrevious_fix (initial : string) (A B : ImportDeclaration) (r : Report) :
  In r (comparePrevious Array_sort config sourceCode initial A B) ->
  report_fix r = replaceAllDeclarations Array_sort config sourceCode initial
  /\ report_node r = OnDeclaration B.
Proof.
  unfold comparePrevious.
  repeat match goal with |- context [if ?c then _ else _] => destruct c end;
    simpl; intros H; try contradiction; destruct H as [<-|[]]; auto.
Qed.

Lemma onImportDeclaration_fixes (st : State) (node : ImportDeclaration) :
  exists reports,
    onImportDeclaration Array_sort config sourceCode st node
    = Some ({| previousDeclaration := Some node;
               initialSource := Some (readSource sourceCode st) |}, reports)
    /\ forall r, In r reports ->
         fixOf Array_sort config sourceCode (readSource sourceCode st) [node] r.
Proof.
  destruct (checkMembers_spec Array_sort config sourceCode (readSource sourceCode st) node)
    as [[E _] | (k & previous & flagged & _ & _ & _ & Hf & E)];
    unfold onImportDeclaration; rewrite E; cbn [bind]; eexists; (split; [reflexivity|]);
    intros r Hin; apply in_app_or in Hin; destruct Hin as [Hin|Hin].
  - left. destruct (previousDeclaration st) as [above|]; [|contradiction].
    destruct (isLineBetween above node); [contradiction|].
    now apply comparePrevious_fix in Hin.
  - contradiction.
  - left. destruct (previousDeclaration st) as [above|]; [|contradiction].
    destruct (isLineBetween above node); [contradiction|].
    now apply comparePrevious_fix in Hin.
  - destruct Hin as [<-|[]]. cbn [report_fix messageId report_node].
    destruct (hasComments (namedSpecifiers node)) eqn:Hc; [right|left; reflexivity].
    split; [reflexivity|]. split; [reflexivity|].
    exists node, flagged. repeat split; auto.
    + now left.
    + eapply nth_error_In; eauto.
Qed.

Lemma fixOf_incl (initial : string) (nodes nodes' : list ImportDeclaration) (r : Report) :
  incl nodes nodes' ->
  fixOf Array_sort config sourceCode initial nodes r ->
  fixOf Array_sort config sourceCode initial nodes' r.
Proof.
  intros Hincl [H | (H1 & H2 & node & flagged & Hin & H3)]; [now left|right].
  split; [exact H1|]. split; [exact H2|]. exists node, flagged.
  destruct H3 as (? & ? & ?). auto.
Qed.

(** The text that the fixes read is the text of the file all along. *)
Lemma visitAll_fixes (nodes : list ImportDeclaration) (st : State) :
  readSource sourceCode st = getText sourceCode ->
  exists reports,
    visitAll Array_sort config sourceCode st nodes = Some reports
    /\ forall r, In r reports -> fixOf Array_sort config sourceCode (getText sourceCode) nodes r.
Proof.
  revert st. induction nodes as [|node nodes IH]; intros st Hread.
  - exists []. split; [reflexivity|]. intros r [].
  - destruct (onImportDeclaration_fixes st node) as (reports & E & Hfix).
    cbn [visitAll]. rewrite E. cbn [bind fst snd].
    destruct (IH {| previousDeclaration := Some node;
                    initialSource := Some (readSource sourceCode st) |})
      as (more & E' & Hmore).
    { unfold readSource at 1. cbn [initialSource]. rewrite Hread.
      now destruct (JS.truthy (getText sourceCode)). }
    rewrite E'. cbn [bind]. eexists. split; [reflexivity|].
    intros r Hin. apply in_app_or in Hin. destruct Hin as [Hin|Hin].
    + apply (fixOf_incl _ [node]); [intros x [<-|[]]; now left|].
      rewrite <- Hread. now apply Hfix.
    + apply (fixOf_incl _ nodes); [intros x Hx; now right|]. now apply Hmore.
Qed.

Lemma replaceAllDeclarations_empty (initial : string) :
  allDeclarations sourceCode = [] ->
  replaceAllDeclarations Array_sort config sourceCode initial = FixThrows.
Proof. intros E. unfold replaceAllDeclarations. rewrite E. reflexivity. Qed.

(** The walk of the host is the walk of the listener, unless a fix
    throws. *)
Lemma lint_of_walk (reports : list Report) :
  visitAll Array_sort config sourceCode initialState (visitedDeclarations sourceCode)
  = Some reports ->
  lint Array_sort config sourceCode
  = if existsb fixThrows reports then None else Some reports.
Proof. intros E. unfold lint. rewrite E. reflexivity. Qed.

Lemma no_fix_throws (reports : list Report) :
  (forall r, In r reports -> report_fix r <> FixThrows) ->
  existsb fixThrows reports = false.
Proof.
  intros H. destruct (existsb fixThrows reports) eqn:E; [|reflexivity].
  apply existsb_exists in E. destruct E as (r & Hin & Hr).
  unfold fixThrows in Hr. specialize (H r Hin).
  destruct (report_fix r); try discriminate. contradiction.
Qed.

Lemma some_fix_throws (reports : list Report) :
  existsb fixThrows reports = true <-> exists r, In r reports /\ report_fix r = FixThrows.
Proof.
  rewrite existsb_exists. split; intros (r & Hin & Hr); exists r; (split; [exact Hin|]).
  - unfold fixThrows in Hr. now destruct (report_fix r).
  - unfold fixThrows. now rewrite Hr.
Qed.


(** X1.  The walk over a file, which visits every import declaration of the
    file, throws exactly when a report with a fix that is not [null] is made
    in a file whose program body has no import declaration, so that its
    imports are all inside [declare module] blocks: the fix reads the first
    of no declarations.  In every other case the walk returns the reports
    of all the calls. *)
Theorem lint_throws_iff_no_top_level_import :
  exists reports,
    visitAll Array_sort config sourceCode initialState (visitedDeclarations sourceCode)
    = Some reports
    /\ (lint Array_sort config sourceCode = None
        <-> allDeclarations sourceCode = []
            /\ exists r, In r reports /\ report_fix r <> FixNull)
    /\ (lint Array_sort config sourceCode <> None ->
        lint Array_sort config sourceCode = Some reports).
Proof.
  destruct (visitAll_fixes (visitedDeclarations sourceCode) initialState)
    as (reports & E & H); [reflexivity|].
  exists reports. split; [exact E|].
  rewrite (lint_of_walk reports E).
  split; [|destruct (existsb fixThrows reports); congruence].
  destruct (allDeclarations sourceCode) as [|first rest] eqn:Hall.
  - transitivity (existsb fixThrows reports = true);
      [destruct (existsb fixThrows reports); split; congruence|].
    rewrite some_fix_throws.
    split; [intros (r & Hin & Hr)|intros (_ & r & Hin & Hr)].
    + split; [reflexivity|]. exists r. split; [exact Hin|]. congruence.
    + exists r. split; [exact Hin|].
      destruct (H r Hin) as [F|[F _]]; [|contradiction].
      rewrite F. now apply replaceAllDeclarations_empty.
  - split; [|intros [Hnil _]; discriminate].
    intros Hnone. exfalso.
    assert (Hspan : exists span, spanOf (allDeclarations sourceCode) = Some span).
    { rewrite Hall. unfold spanOf. cbn [hd_error bind].
      destruct (lastOf (first :: rest)) as [last|] eqn:Hlast;
        [|apply lastOf_nil in Hlast; discriminate].
      cbn [bind]. eauto. }
    destruct Hspan as (span & Hspan).
    destruct (replaceAllDeclarations_spec (getText sourceCode) span Hspan)
      as (text & _ & Efix).
    rewrite no_fix_throws in Hnone; [discriminate|].
    intros r Hin Hr. destruct (H r Hin) as [F|[F _]]; congruence.
Qed.

End FixRange.

(** ** The listener in the walk over the file *)

Lemma bind_assoc_reports {A : Type} (m : option (list A)) (r1 r2 : list A) :
  bind (bind m (fun more => Some (r2 ++ more))) (fun more => Some (r1 ++ more))
  = bind m (fun more => Some ((r1 ++ r2) ++ more)).
Proof. destruct m; simpl; [now rewrite app_assoc|reflexivity]. Qed.

Section Walk.

Variable Array_sort : forall A : Type, (A -> A -> Z) -> list A -> list A.
Variable config : Options.
Variable sourceCode : SourceCode.

(** After the walk over some declarations, the previous declaration is the
    last of them. *)
Lemma visitAll_prefix (pre : list ImportDeclaration) (st : State) :
  exists st1 reports1,
    (forall rest,
        visitAll Array_sort config sourceCode st (pre ++ rest)
        = bind (visitAll Array_sort config sourceCode st1 rest)
            (fun more => Some (reports1 ++ more)))
    /\ previousDeclaration st1
       = match lastOf pre with
         | Some node => Some node
         | None => previousDeclaration st
         end.
Proof.
  revert st. induction pre as [|node pre IH]; intros st.
  - exists st, []. split; [|reflexivity].
    intros rest. simpl. now destruct (visitAll Array_sort config sourceCode st rest).
  - destruct (onImportDeclaration_total Array_sort config sourceCode st node)
      as (order & members & E & _).
    destruct (IH {| previousDeclaration := Some node;
                    initialSource := Some (readSource sourceCode st) |})
      as (st1 & reports1 & Hwalk & Hprev).
    exists st1, ((order ++ members) ++ reports1). split.
    + intros rest. cbn [app visitAll]. rewrite E. cbn [bind fst snd].
      rewrite Hwalk. apply bind_assoc_reports.
    + rewrite Hprev. cbn [previousDeclaration].
      destruct pre as [|next pre]; [reflexivity|].
      change (lastOf (node :: next :: pre)) with (lastOf (next :: pre)).
      destruct (lastOf (next :: pre)) eqn:Hlast; [reflexivity|].
      apply lastOf_nil in Hlast. discriminate.
Qed.

(** In the walk over the file, the listener is called on each declaration
    with the declaration just before it as the previous one, and its
    reports are reports of the file. *)
Lemma lint_compares_adjacent (pre post : list ImportDeclaration) (A B : ImportDeclaration) :
  visitedDeclarations sourceCode = pre ++ A :: B :: post ->
  exists st st' reportsB reportsBefore reportsAfter,
    previousDeclaration st = Some A
    /\ onImportDeclaration Array_sort config sourceCode st B = Some (st', reportsB)
    /\ visitAll Array_sort config sourceCode initialState (visitedDeclarations sourceCode)
       = Some (reportsBefore ++ reportsB ++ reportsAfter).
Proof.
  intros Hall.
  destruct (visitAll_prefix (pre ++ [A]) initialState) as (st & before & Hwalk & Hprev).
  rewrite lastOf_snoc in Hprev.
  destruct (onImportDeclaration_total Array_sort config sourceCode st B)
    as (order & members & E & _).
  destruct (visitAll_prefix post
              {| previousDeclaration := Some B;
                 initialSource := Some (readSource sourceCode st) |})
    as (st2 & after' & Hwalk2 & _).
  exists st. eexists _, (order ++ members), before, after'.
  split; [exact Hprev|]. split; [exact E|].
  rewrite Hall.
  replace (pre ++ A :: B :: post) with ((pre ++ [A]) ++ B :: post)
    by (rewrite <- app_assoc; reflexivity).
  rewrite Hwalk. cbn [visitAll]. rewrite E. cbn [bind fst snd].
  rewrite <- (app_nil_r post), Hwalk2. simpl. now rewrite app_nil_r.
Qed.

End Walk.

(** * The rule on the engine of Node *)

(** ** The range of a fix is not the range of the run *)

Example twoRuns_runs :
  runs (allDeclarations Fixtures.twoRuns)
  = [[Fixtures.twoRuns_1; Fixtures.twoRuns_2]; [Fixtures.twoRuns_3]]
  /\ spanOf [Fixtures.twoRuns_1; Fixtures.twoRuns_2] = Some (0, 47)
  /\ spanOf (allDeclarations Fixtures.twoRuns) = Some (0, 72).
Proof. repeat split. Qed.


(** A file with an import in its body and two imports inside a
    [declare module] block, on the engine of Node: the second nested import
    is reported, and the fix replaces the range of the import of the
    body. *)
Example nested_import_reported :
  spanOf (allDeclarations Fixtures.nestedImports) = Some (0, 18)
  /\ option_map (map (fun r => (report_node r, messageId r, report_fix r)))
       (Fixtures.lintV8 defaultOptions Fixtures.nestedImports)
     = Some [(OnDeclaration Fixtures.nestedImports_3, alphabeticalOrder,
              FixReplace (0, 18) "import a from 'a';")].
Proof. split; vm_compute; reflexivity. Qed.

(** A file whose only imports are nested: the report on the second one has
    a fix that throws, and so does the walk. *)
Example nested_only_throws :
  allDeclarations Fixtures.nestedOnly = []
  /\ option_map (map (fun r => (report_node r, messageId r, report_fix r)))
       (visitAll (@V8.sort) defaultOptions Fixtures.nestedOnly initialState
          (visitedDeclarations Fixtures.nestedOnly))
     = Some [(OnDeclaration Fixtures.nestedOnly_2, alphabeticalOrder, FixThrows)]
  /\ Fixtures.lintV8 defaultOptions Fixtures.nestedOnly = None.
Proof. repeat split. Qed.


Lemma lint_throws_iff_no_top_level_import_witness :
  lint (@V8.sort) defaultOptions Fixtures.nestedOnly = None.
Proof.
  destruct (lint_throws_iff_no_top_level_import (@V8.sort) V8Facts.sort_permutes
              defaultOptions Fixtures.nestedOnly) as (reports & E & Hiff & _).
  apply Hiff. split; [reflexivity|].
  vm_compute in E. injection E as <-.
  eexists. split; [left; reflexivity|]. discriminate.
Defined.

(** ** The checks on files of the tests *)

Lemma defaultOptions_valid : schemaValid defaultOptions.
Proof.
  split; [|reflexivity].
  repeat constructor; simpl; intuition discriminate.
Qed.




(** The two runs of a file of the tests stay apart in the fix. *)
Lemma run_isolation_witness :
  isLineBetween Fixtures.twoRuns_2 Fixtures.twoRuns_3 = true
  /\ exists out1 out2,
       sortedNodes (@V8.sort) defaultOptions (getText Fixtures.twoRuns)
         (allDeclarations Fixtures.twoRuns) = Some (out1 ++ out2)
       /\ Permutation (map fst out1) [Fixtures.twoRuns_1; Fixtures.twoRuns_2]
       /\ Permutation (map fst out2) [Fixtures.twoRuns_3].
Proof.
  split; [reflexivity|].
  destruct (run_isolation (@V8.sort) V8Facts.sort_permutes defaultOptions
              (getText Fixtures.twoRuns) (allDeclarations Fixtures.twoRuns))
    as (fixed & _ & _ & _ & _ & _ & _ & _ & _ & Hgap).
  exact (Hgap [Fixtures.twoRuns_1] Fixtures.twoRuns_2 Fixtures.twoRuns_3 [] eq_refl eq_refl).
Defined.


(** ** Comments among the specifiers *)

(** C2 fails on the code.  The first declaration has a comment after its
    specifier [z], and its specifiers are not sorted.  The fix of its own
    [memberAlphabetical] report is [null]; but the second declaration is
    reported for [alphabeticalOrder], and the fix of that report sorts the
    specifiers of the first declaration all the same: [y] takes the place of
    [z], before the comment. *)
Theorem comments_do_not_stop_other_fixes :
  hasComments (namedSpecifiers Fixtures.commented_1) = true
  /\ map local_name (namedSpecifiers Fixtures.commented_1) = ["z"; "y"]
  /\ JS.substring (getText Fixtures.commented) 0 31 = "import {z /* c */, y} from 'a';"
  /\ option_map (map (fun r => (messageId r, report_fix r)))
       (Fixtures.lintV8 defaultOptions Fixtures.commented)
     = Some [(memberAlphabetical, FixNull);
             (alphabeticalOrder,
              FixReplace (0, 52)
                ("import {b} from 'b';"
                 ++ Fixtures.LF ++ "import {y /* c */, z} from 'a';")%string)].
Proof. repeat split; vm_compute; reflexivity. Qed.

(** ** The fix applied once *)

(** C7 fails on the code.  The specifiers of the first declaration of
    [staleName] are sorted by the fix, and the declarations are sorted by
    the first names they had before that.  The text of the fix is the text
    of [staleNameFixed], whose second declaration now starts with [a], below
    the [c] of the first one: the rule reports it. *)
Theorem fix_not_idempotent :
  Fixtures.agrees Fixtures.staleName = true
  /\ Fixtures.agrees Fixtures.staleNameFixed = true
  /\ String.length (getText Fixtures.staleName) = 44
  /\ option_map (map (fun r => (messageId r, report_fix r)))
       (Fixtures.lintV8 defaultOptions Fixtures.staleName)
     = Some [(memberAlphabetical, FixReplace (0, 44) (getText Fixtures.staleNameFixed));
             (alphabeticalOrder, FixReplace (0, 44) (getText Fixtures.staleNameFixed))]
  /\ getText Fixtures.staleNameFixed
     = ("import {c} from 'y';" ++ Fixtures.LF ++ "import {a, d} from 'x';")%string
  /\ option_map (map (fun r => (report_node r, messageId r)))
       (Fixtures.lintV8 defaultOptions Fixtures.staleNameFixed)
     = Some [(OnDeclaration Fixtures.staleNameFixed_2, alphabeticalOrder)].
Proof. repeat split; vm_compute; reflexivity. Qed.

(** ** Names that tie *)

(** The comparison function of the specifiers never answers that two
    specifiers are equal. *)
Lemma compareSpecifiers_never_zero (config : Options) (a b : Specifier) :
  compareSpecifiers config a b <> 0%Z.
Proof. unfold compareSpecifiers. destruct (JS.gt _ _); discriminate. Qed.

(** The comparison function of the declarations answers [-1] in both
    directions for two declarations of the same kind and syntax whose names
    are equal and not empty. *)
Lemma compareDeclarations_tie (config : Options) (a b : Rich) :
  isTypeImport (fst a) = isTypeImport (fst b) ->
  usedMemberSyntax (fst a) = usedMemberSyntax (fst b) ->
  getFirstLocalMemberName (fst a) <> "" ->
  normalizedFirstName config (fst a) = normalizedFirstName config (fst b) ->
  compareDeclarations config a b = (-1)%Z /\ compareDeclarations config b a = (-1)%Z.
Proof.
  intros Htype Hsyntax Hname Hsame.
  assert (Hb : JS.truthy (getFirstLocalMemberName (fst b)) = true).
  { rewrite <- normalizedFirstName_truthy with (config := config), <- Hsame,
      normalizedFirstName_truthy. now apply truthy_nonempty. }
  apply truthy_nonempty in Hname.
  assert (Hirrefl : forall s, String.ltb s s = false).
  { intros s. unfold String.ltb. pose proof (String.compare_antisym s s) as Hs.
    destruct (String.compare s s); simpl in Hs; try discriminate; reflexivity. }
  unfold normalizedFirstName in Hsame.
  unfold compareDeclarations, getMemberParameterGroupIndex.
  rewrite Htype, Hsyntax, eqb_reflx, Z.eqb_refl, Hname, Hb.
  rewrite andb_false_r. cbn [negb andb]. unfold JS.lt.
  destruct (ignoreCase config); rewrite ?toLowerCase_truthy, ?Hname, ?Hb, Hsame, Hirrefl;
    auto.
Qed.

(** C9 fails on the engine of Node.  With [ignoreCase], the specifiers [a]
    and [A] tie, and so do the declarations that import [a] and [A]: the
    comparison functions answer [-1] for them in both directions, and the
    sort puts [A] before [a], against the order of the source.  In the last
    file the comparison function answers [0] for the import of the empty
    source and the import of [a], and the fix moves the second one above the
    first one. *)
Theorem ties_are_reversed :
  (map (fun s => getSortableName s true) (namedSpecifiers Fixtures.tiedSpecifiers_1)
   = ["b"; "a"; "a"]
   /\ option_map (map report_fix) (Fixtures.lintV8 Fixtures.ignoringCase Fixtures.tiedSpecifiers)
      = Some [FixReplace (0, 26) "import {A, a, b} from 'x';"])
  /\ (compareDeclarations Fixtures.ignoringCase
        (Fixtures.tiedDeclarations_2, "") (Fixtures.tiedDeclarations_3, "") = (-1)%Z
      /\ compareDeclarations Fixtures.ignoringCase
           (Fixtures.tiedDeclarations_3, "") (Fixtures.tiedDeclarations_2, "") = (-1)%Z
      /\ getText Fixtures.tiedDeclarations
         = ("import b from 'x';" ++ Fixtures.LF ++ "import a from 'y';"
            ++ Fixtures.LF ++ "import A from 'z';")%string
      /\ option_map (map report_fix)
           (Fixtures.lintV8 Fixtures.ignoringCase Fixtures.tiedDeclarations)
         = Some [FixReplace (0, 56)
                   ("import A from 'z';" ++ Fixtures.LF ++ "import a from 'y';"
                    ++ Fixtures.LF ++ "import b from 'x';")%string])
  /\ (compareDeclarations defaultOptions
        (Fixtures.emptySource_4, "") (Fixtures.emptySource_6, "") = 0%Z
      /\ compareDeclarations defaultOptions
           (Fixtures.emptySource_6, "") (Fixtures.emptySource_4, "") = 0%Z
      /\ getText Fixtures.emptySource
         = ("import 'e';" ++ Fixtures.LF ++ "import 'f';" ++ Fixtures.LF ++ "import 'g';"
            ++ Fixtures.LF ++ "import '';" ++ Fixtures.LF ++ "import 'b';"
            ++ Fixtures.LF ++ "import 'a';")%string
      /\ option_map (map report_fix) (Fixtures.lintV8 defaultOptions Fixtures.emptySource)
         = Some [FixReplace (0, 70)
                   ("import 'a';" ++ Fixtures.LF ++ "import 'e';" ++ Fixtures.LF
                    ++ "import 'f';" ++ Fixtures.LF ++ "import 'g';" ++ Fixtures.LF
                    ++ "import '';" ++ Fixtures.LF ++ "import 'b';")%string]).
Proof. repeat split; vm_compute; reflexivity. Qed.

(** * Further properties of the rule *)

(** ** The reports of a call and of a file *)

Lemma replaceAllDeclarations_not_null
    (Array_sort : forall A : Type, (A -> A -> Z) -> list A -> list A)
    (config : Options) (sourceCode : SourceCode) (initial : string) :
  replaceAllDeclarations Array_sort config sourceCode initial <> FixNull.
Proof.
  unfold replaceAllDeclarations.
  destruct (JS.get (allDeclarations sourceCode) 0); [|discriminate].
  destruct (JS.get (allDeclarations sourceCode)
              (Z.of_nat (List.length (allDeclarations sourceCode)) - 1)); [|discriminate].
  destruct (sortAndFixAllNodes Array_sort config initial (allDeclarations sourceCode));
    discriminate.
Qed.

Lemma hasComments_iff (importSpecifiers : list Specifier) :
  hasComments importSpecifiers = true
  <-> exists s, In s importSpecifiers /\ (commentsBefore s <> [] \/ commentsAfter s <> []).
Proof.
  unfold hasComments, JS.some. rewrite existsb_exists.
  split; intros (s & Hin & H); exists s; (split; [exact Hin|]).
  - apply orb_true_iff in H.
    destruct H as [H|H]; [left|right]; intros E; rewrite E in H; discriminate.
  - apply orb_true_iff.
    destruct H as [H|H]; [left|right];
      [destruct (commentsBefore s)|destruct (commentsAfter s)];
      try contradiction; reflexivity.
Qed.

Section ReportFacts.

Variable Array_sort : forall A : Type, (A -> A -> Z) -> list A -> list A.
Variable config : Options.
Variable sourceCode : SourceCode.

(** X2.  All the fixes of a walk that are not [null] are the same fix,
    whatever the declarations that the host visits, the ones of the body of
    the file and the ones inside [declare module] blocks: each report
    computes again the replacement of all the imports of the body from the
    text of the file, and the state of the listener does not change it. *)
Theorem fixes_of_a_file_agree (nodes : list ImportDeclaration) :
  exists reports,
    visitAll Array_sort config sourceCode initialState nodes = Some reports
    /\ (forall r1 r2, In r1 reports -> In r2 reports ->
          report_fix r1 <> FixNull -> report_fix r2 <> FixNull ->
          report_fix r1 = report_fix r2)
    /\ (nodes = visitedDeclarations sourceCode ->
        forall delivered, lint Array_sort config sourceCode = Some delivered ->
                          delivered = reports).
Proof.
  destruct (visitAll_fixes Array_sort config sourceCode nodes initialState)
    as (reports & E & H); [reflexivity|].
  exists reports. split; [exact E|]. split.
  - intros r1 r2 H1 H2 N1 N2.
    destruct (H r1 H1) as [F1|[F1 _]]; [|contradiction].
    destruct (H r2 H2) as [F2|[F2 _]]; [|contradiction].
    congruence.
  - intros -> delivered Hlint. unfold lint in Hlint. rewrite E in Hlint.
    cbn [bind] in Hlint. destruct (existsb fixThrows reports); congruence.
Qed.

(** X3.  A call of the listener makes at most one report on the order of
    the declaration and at most one report on its members, in that order.
    The report on the order is on the declaration and is [typeOrder],
    [wrongOrder] or [alphabeticalOrder]; the report on the members is
    [memberAlphabetical]. *)
Theorem at_most_two_reports (st : State) (node : ImportDeclaration) :
  exists st' order members,
    onImportDeclaration Array_sort config sourceCode st node = Some (st', order ++ members)
    /\ (List.length order <= 1)%nat
    /\ (List.length members <= 1)%nat
    /\ (forall r, In r order ->
          report_node r = OnDeclaration node
          /\ (messageId r = typeOrder \/ messageId r = wrongOrder
              \/ messageId r = alphabeticalOrder))
    /\ (forall r, In r members -> messageId r = memberAlphabetical).
Proof.
  destruct (checkMembers_spec Array_sort config sourceCode (readSource sourceCode st) node)
    as [[E _] | (k & previous & flagged & _ & _ & _ & _ & E)];
    unfold onImportDeclaration; rewrite E; cbn [bind]; eexists _, _, _;
    (split; [reflexivity|]);
    (split; [|split; [simpl; lia|split; [|simpl; intros r Hr; intuition (subst; auto)]]]).
  all: destruct (previousDeclaration st) as [above|]; try (simpl; lia || intros r []).
  all: destruct (isLineBetween above node); try (simpl; lia || intros r []).
  all: unfold comparePrevious;
    repeat match goal with |- context [if ?c then _ else _] => destruct c end;
    simpl; try lia; intros r Hr; try contradiction; destruct Hr as [<-|[]]; simpl; auto.
Qed.

(** X4.  A declaration that has no declaration before it, or whose previous
    declaration is separated from it by a line, gets no report on its
    order. *)
Theorem no_order_report_after_gap (st : State) (node : ImportDeclaration) :
  (forall above, previousDeclaration st = Some above -> isLineBetween above node = true) ->
  exists st' reports,
    onImportDeclaration Array_sort config sourceCode st node = Some (st', reports)
    /\ reported typeOrder reports = false
    /\ reported wrongOrder reports = false
    /\ reported alphabeticalOrder reports = false.
Proof.
  intros Hgap.
  destruct (checkMembers_messages Array_sort config sourceCode (readSource sourceCode st) node)
    as (members & E & Hmembers).
  unfold onImportDeclaration. rewrite E. cbn [bind]. eexists _, _. split; [reflexivity|].
  assert (Horder : match previousDeclaration st with
                   | Some previous =>
                       if negb (isLineBetween previous node)
                       then comparePrevious Array_sort config sourceCode
                              (readSource sourceCode st) previous node
                       else []
                   | None => []
                   end = []).
  { destruct (previousDeclaration st) as [above|]; [|reflexivity].
    now rewrite (Hgap above eq_refl). }
  rewrite Horder. cbn [app].
  repeat split; apply (reported_other _ memberAlphabetical); auto; discriminate.
Qed.

(** X5.  The fix of a report on the members is [null] if and only if a
    named specifier of the declaration has a comment before or after it;
    comments on the default or namespace specifier do not count. *)
Theorem member_fix_null_iff_comments (st : State) (node : ImportDeclaration) :
  exists st' reports,
    onImportDeclaration Array_sort config sourceCode st node = Some (st', reports)
    /\ forall r, In r reports -> messageId r = memberAlphabetical ->
         (report_fix r = FixNull
          <-> exists s, In s (specifiers node)
                        /\ spec_type s = ImportSpecifier
                        /\ (commentsBefore s <> [] \/ commentsAfter s <> [])).
Proof.
  destruct (onImportDeclaration_total Array_sort config sourceCode st node)
    as (order & members & E & Hmembers & Horder).
  eexists _, _. split; [exact E|].
  intros r Hin Hr. apply in_app_or in Hin. destruct Hin as [Hin|Hin].
  { assert (reported memberAlphabetical order = true) by (apply reported_iff; eauto).
    congruence. }
  assert (Hnamed : (exists s, In s (specifiers node) /\ spec_type s = ImportSpecifier
                              /\ (commentsBefore s <> [] \/ commentsAfter s <> []))
                   <-> hasComments (namedSpecifiers node) = true).
  { rewrite hasComments_iff. unfold namedSpecifiers.
    split; intros (s & H1 & H2).
    - destruct H2 as [H2 H3]. exists s. split; [|exact H3].
      apply filter_In. split; [exact H1|]. now rewrite H2.
    - apply filter_In in H1. destruct H1 as [H1 H3]. exists s.
      split; [exact H1|]. split; [|exact H2]. now destruct (spec_type s). }
  rewrite Hnamed.
  destruct (checkMembers_spec Array_sort config sourceCode (readSource sourceCode st) node)
    as [[E' _] | (k & previous & flagged & _ & _ & _ & _ & E')];
    rewrite E' in Hmembers; injection Hmembers as <-; [contradiction|].
  destruct Hin as [<-|[]]. cbn [report_fix].
  destruct (hasComments (namedSpecifiers node)); [split; reflexivity|].
  split; [|discriminate]. intros H. now apply replaceAllDeclarations_not_null in H.
Qed.

End ReportFacts.

(** ** The index of the syntax of a declaration *)

Lemma indexOfFrom_spec (x : MemberSyntaxSortOrder) (l : list MemberSyntaxSortOrder) (i : Z) :
  (JS.indexOfFrom MemberSyntaxSortOrder_eqb x l i = (-1)%Z /\ ~ In x l)
  \/ (exists k,
        JS.indexOfFrom MemberSyntaxSortOrder_eqb x l i = (i + Z.of_nat k)%Z
        /\ nth_error l k = Some x
        /\ forall j, (j < k)%nat -> nth_error l j <> Some x).
Proof.
  revert i. induction l as [|y l IH]; intros i; simpl.
  - left. auto.
  - destruct (MemberSyntaxSortOrder_eqb y x) eqn:E.
    + apply MemberSyntaxSortOrder_eqb_eq in E. subst y. right. exists 0%nat.
      split; [lia|]. split; [reflexivity|]. intros j Hj. lia.
    + assert (Hne : y <> x).
      { intros ->. assert (MemberSyntaxSortOrder_eqb x x = true)
          by now apply MemberSyntaxSortOrder_eqb_eq. congruence. }
      destruct (IH (i + 1)%Z) as [[E' Hnot] | (k & E' & Hk & Hmin)].
      * left. split; [exact E'|]. intros [H|H]; auto.
      * right. exists (S k). split; [rewrite E'; lia|]. split; [exact Hk|].
        intros [|j] Hj; simpl; [congruence|]. apply Hmin. lia.
Qed.

(** X6.  The index of the syntax of a declaration in the configured order is
    [-1] exactly when the order does not have that syntax.  Otherwise it is
    the first position of the syntax: it is inside the order, the entry read
    there is the syntax, and no entry before it is. *)
Theorem group_index_lookup (node : ImportDeclaration) (order : list MemberSyntaxSortOrder) :
  let index := getMemberParameterGroupIndex node order in
  (index = (-1)%Z <-> ~ In (usedMemberSyntax node) order)
  /\ (index <> (-1)%Z ->
      (0 <= index < Z.of_nat (List.length order))%Z
      /\ JS.get order index = Some (usedMemberSyntax node)
      /\ forall j, (0 <= j < index)%Z -> JS.get order j <> Some (usedMemberSyntax node)).
Proof.
  intros index. subst index. unfold getMemberParameterGroupIndex, JS.indexOf.
  destruct (indexOfFrom_spec (usedMemberSyntax node) order 0)
    as [[E Hnot] | (k & E & Hk & Hmin)]; rewrite E.
  - split; [split; auto|]. intros H. contradiction.
  - rewrite Z.add_0_l. split.
    + split; [lia|]. intros Hnot. exfalso. apply Hnot. eapply nth_error_In; eauto.
    + intros _. assert (k < List.length order)%nat by (apply nth_error_Some; congruence).
      split; [lia|]. split; [now rewrite get_nat|].
      intros j Hj. replace j with (Z.of_nat (Z.to_nat j)) by lia.
      rewrite get_nat. apply Hmin. lia.
Qed.

(** X7.  With an order that the schema accepts, the index of every
    declaration is between 0 and 3, and two declarations have the same index
    exactly when they have the same syntax. *)
Theorem group_index_of_valid_order (config : Options) (A B : ImportDeclaration) :
  schemaValid config ->
  (0 <= getMemberParameterGroupIndex A (memberSyntaxSortOrder config) <= 3)%Z
  /\ (getMemberParameterGroupIndex A (memberSyntaxSortOrder config)
      = getMemberParameterGroupIndex B (memberSyntaxSortOrder config)
      <-> usedMemberSyntax A = usedMemberSyntax B).
Proof.
  intros Hvalid.
  pose proof (get_indexOf _ _ (schemaValid_In config (usedMemberSyntax A) Hvalid)) as HA.
  pose proof (get_indexOf _ _ (schemaValid_In config (usedMemberSyntax B) Hvalid)) as HB.
  fold (getMemberParameterGroupIndex A (memberSyntaxSortOrder config)) in HA.
  fold (getMemberParameterGroupIndex B (memberSyntaxSortOrder config)) in HB.
  split.
  - apply get_Some_bounds in HA. destruct Hvalid as [_ Hlen]. rewrite Hlen in HA. lia.
  - split; intros H.
    + rewrite H in HA. congruence.
    + unfold getMemberParameterGroupIndex. now rewrite H.
Qed.

Lemma group_index_of_valid_order_witness :
  schemaValid defaultOptions
  /\ (0 <= getMemberParameterGroupIndex Fixtures.syntaxOrder_1
            (memberSyntaxSortOrder defaultOptions) <= 3)%Z
  /\ (getMemberParameterGroupIndex Fixtures.syntaxOrder_1
        (memberSyntaxSortOrder defaultOptions)
      = getMemberParameterGroupIndex Fixtures.syntaxOrder_2
          (memberSyntaxSortOrder defaultOptions)
      <-> usedMemberSyntax Fixtures.syntaxOrder_1 = usedMemberSyntax Fixtures.syntaxOrder_2).
Proof.
  split; [exact defaultOptions_valid|].
  exact (group_index_of_valid_order defaultOptions Fixtures.syntaxOrder_1
           Fixtures.syntaxOrder_2 defaultOptions_valid).
Defined.

(** ** The comparison function of the sort and the check of the listener *)

Lemma ltb_asymmetric (x y : string) : String.ltb x y = true -> String.ltb y x = false.
Proof.
  unfold String.ltb. rewrite (String.compare_antisym y x).
  destruct (String.compare x y); simpl; congruence.
Qed.

(** The names that the comparison function compares are the names that the
    listener compares. *)
Lemma guarded_lower_case (config : Options) (node : ImportDeclaration) :
  (if ignoreCase config
   then (if JS.truthy (getFirstLocalMemberName node)
         then JS.toLowerCase (getFirstLocalMemberName node)
         else getFirstLocalMemberName node)
   else getFirstLocalMemberName node)
  = normalizedFirstName config node.
Proof.
  unfold normalizedFirstName. destruct (ignoreCase config); [|reflexivity].
  now destruct (getFirstLocalMemberName node).
Qed.

Section Comparator.

Variable Array_sort : forall A : Type, (A -> A -> Z) -> list A -> list A.
Variable config : Options.
Variable sourceCode : SourceCode.


(** X9.  The comparison function of the sort never answers [1] in both
    directions: when it puts [a] after [b], it puts [b] before [a].  It
    answers [0] for [a] and [b] exactly when it answers [0] for [b] and
    [a]. *)
Theorem compareDeclarations_antisymmetric (a b : Rich) :
  (compareDeclarations config a b = 1%Z -> compareDeclarations config b a = (-1)%Z)
  /\ (compareDeclarations config a b = 0%Z <-> compareDeclarations config b a = 0%Z).
Proof.
  unfold compareDeclarations. rewrite !guarded_lower_case.
  rewrite (Z.eqb_sym (getMemberParameterGroupIndex (fst a) (memberSyntaxSortOrder config))).
  generalize (getMemberParameterGroupIndex (fst a) (memberSyntaxSortOrder config)) as ia.
  generalize (getMemberParameterGroupIndex (fst b) (memberSyntaxSortOrder config)) as ib.
  intros ib ia.
  pose proof (ltb_asymmetric (normalizedFirstName config (fst a))
                (normalizedFirstName config (fst b))) as Hab.
  pose proof (ltb_asymmetric (normalizedFirstName config (fst b))
                (normalizedFirstName config (fst a))) as Hba.
  unfold JS.lt.
  destruct (String.ltb (normalizedFirstName config (fst a))
              (normalizedFirstName config (fst b)));
    destruct (String.ltb (normalizedFirstName config (fst b))
                (normalizedFirstName config (fst a)));
    try (specialize (Hab eq_refl); discriminate);
    destruct (typeSortStrategy config), (isTypeImport (fst a)), (isTypeImport (fst b));
    cbn [TypeSortStrategy_eqb negb andb orb Bool.eqb];
    destruct (Z.eqb_spec ib ia); cbn [negb];
    destruct (Z.ltb_spec ib ia); destruct (Z.ltb_spec ia ib); try lia;
    destruct (JS.truthy (normalizedFirstName config (fst a)));
    destruct (JS.truthy (normalizedFirstName config (fst b)));
    cbn [andb]; split; try split; intros; try discriminate; reflexivity.
Qed.

End Comparator.


(** ** The text of the fix *)

Lemma string_app_assoc (a b c : string) : ((a ++ b) ++ c = a ++ (b ++ c))%string.
Proof. induction a as [|x a IH]; simpl; [reflexivity|now rewrite IH]. Qed.

Lemma string_app_nil_r (a : string) : (a ++ "" = a)%string.
Proof. induction a as [|x a IH]; simpl; [reflexivity|now rewrite IH]. Qed.

Lemma get_app_middle {A : Type} (pre rest : list A) (x : A) :
  JS.get (pre ++ x :: rest) (Z.of_nat (List.length pre)) = Some x.
Proof. rewrite get_nat, nth_error_app2, Nat.sub_diag by lia. reflexivity. Qed.

(** The last [reduce], started after a first text, alternates the gaps and
    the texts. *)
Lemma joinTexts_interleave (texts gaps passed : list string) (done first : string) :
  List.length texts = List.length gaps ->
  joinTexts (passed ++ gaps) texts (Z.of_nat (S (List.length passed))) (done ++ first)%string
  = (done ++ interleave (first :: texts) gaps)%string.
Proof.
  revert gaps passed done first.
  induction texts as [|text texts IH]; intros gaps passed done first Hlen.
  - destruct gaps; [|discriminate]. reflexivity.
  - destruct gaps as [|gap gaps]; [discriminate|].
    cbn [joinTexts].
    destruct (Z.eqb_spec (Z.of_nat (S (List.length passed))) 0) as [E|_]; [lia|].
    cbn [negb].
    replace (Z.of_nat (S (List.length passed)) - 1)%Z with (Z.of_nat (List.length passed))
      by lia.
    rewrite get_app_middle.
    replace (Z.of_nat (S (List.length passed)) + 1)%Z
      with (Z.of_nat (S (List.length (passed ++ [gap]))))
      by (rewrite length_app; simpl; lia).
    replace (passed ++ gap :: gaps) with ((passed ++ [gap]) ++ gaps)
      by (rewrite <- app_assoc; reflexivity).
    replace ((done ++ first) ++ gap ++ text)%string
      with ((done ++ first ++ gap) ++ text)%string
      by (rewrite !string_app_assoc; reflexivity).
    rewrite IH by (simpl in Hlen; lia).
    cbn [interleave]. now rewrite !string_app_assoc.
Qed.

Lemma betweens_length (initial : string) (nodes : list ImportDeclaration) :
  List.length (betweens initial nodes) = (List.length nodes - 1)%nat.
Proof.
  induction nodes as [|node nodes IH]; [reflexivity|].
  destruct nodes as [|next nodes]; [reflexivity|].
  change (betweens initial (node :: next :: nodes))
    with (JS.substring initial (snd (range node)) (fst (range next))
            :: betweens initial (next :: nodes)).
  cbn [List.length] in *. lia.
Qed.

Section FixText.

Variable Array_sort : forall A : Type, (A -> A -> Z) -> list A -> list A.
Hypothesis Array_sort_permutes : sortPermutes Array_sort.
Variable config : Options.

(** X10.  The fix keeps every declaration: for an engine whose sort returns
    the elements it was given, the declarations in the order of the fix are
    the declarations of the file, each one once, in some order, and no
    exception is thrown. *)
Theorem fix_keeps_every_declaration (initial : string) (nodes : list ImportDeclaration) :
  exists sorted,
    sortedNodes Array_sort config initial nodes = Some sorted
    /\ Permutation (map fst sorted) nodes
    /\ List.length sorted = List.length nodes.
Proof.
  destruct (fixed_total Array_sort Array_sort_permutes config initial nodes)
    as (fixed & E & Hfst).
  unfold sortedNodes. rewrite E. cbn [bind]. eexists. split; [reflexivity|].
  assert (Hperm : Permutation (sortSections Array_sort config (sectionsOf fixed)) fixed).
  { rewrite (sortSections_permutation Array_sort Array_sort_permutes), sectionsOf_groups.
    now rewrite concat_groups. }
  split.
  - rewrite <- Hfst. now apply Permutation_map.
  - rewrite (Permutation_length Hperm), <- Hfst. now rewrite length_map.
Qed.

(** The last [reduce] never reads a gap that does not exist. *)
Lemma sortAndFixAllNodes_interleave (initial : string) (nodes : list ImportDeclaration) :
  exists fixed,
    mapM (fixSpecifiers Array_sort config initial) (rich initial nodes) = Some fixed
    /\ map fst fixed = nodes
    /\ Permutation (sortSections Array_sort config (sectionsOf fixed)) fixed
    /\ sortedNodes Array_sort config initial nodes
       = Some (sortSections Array_sort config (sectionsOf fixed))
    /\ sortAndFixAllNodes Array_sort config initial nodes
       = Some (interleave (map snd (sortSections Array_sort config (sectionsOf fixed)))
                 (betweens initial nodes)).
Proof.
  destruct (fixed_total Array_sort Array_sort_permutes config initial nodes)
    as (fixed & E & Hfst).
  assert (Hsorted : sortedNodes Array_sort config initial nodes
                    = Some (sortSections Array_sort config (sectionsOf fixed))).
  { unfold sortedNodes. rewrite E. reflexivity. }
  assert (Hlen : List.length (sortSections Array_sort config (sectionsOf fixed))
                 = List.length nodes).
  { rewrite (Permutation_length
               (sortSections_permutation Array_sort Array_sort_permutes config _)).
    rewrite sectionsOf_groups, concat_groups. simpl.
    rewrite <- Hfst. now rewrite length_map. }
  exists fixed. split; [exact E|]. split; [exact Hfst|].
  split.
  { rewrite (sortSections_permutation Array_sort Array_sort_permutes), sectionsOf_groups.
    now rewrite concat_groups. }
  split; [exact Hsorted|].
  unfold sortAndFixAllNodes. rewrite Hsorted. cbn [bind]. f_equal.
  pose proof (betweens_length initial nodes) as Hb.
  assert (Htexts : List.length (map snd (sortSections Array_sort config (sectionsOf fixed)))
                   = List.length nodes) by (rewrite length_map; exact Hlen).
  rewrite <- Htexts in Hb. clear Htexts.
  destruct (map snd (sortSections Array_sort config (sectionsOf fixed)))
    as [|first texts].
  - simpl in Hb. destruct (betweens initial nodes); [reflexivity|discriminate].
  - cbn [joinTexts]. cbn [Z.eqb negb].
    change (0 + 1)%Z with (Z.of_nat (S (@List.length string []))).
    change (betweens initial nodes) with ([] ++ betweens initial nodes) at 1.
    change ("" ++ "" ++ first)%string with ("" ++ first)%string.
    rewrite joinTexts_interleave by (cbn [List.length] in Hb; lia).
    reflexivity.
Qed.

(** X11.  The text of the fix is the texts of the declarations in their new
    order, with the gaps of the source between them in their old order: the
    text that was between the declarations at positions [i] and [i + 1] is
    between the texts that are now at these positions.  Every gap is used
    once, and none is missing. *)
Theorem fix_text_interleaves (initial : string) (nodes : list ImportDeclaration) :
  exists sorted,
    sortedNodes Array_sort config initial nodes = Some sorted
    /\ List.length (betweens initial nodes) = (List.length sorted - 1)%nat
    /\ sortAndFixAllNodes Array_sort config initial nodes
       = Some (interleave (map snd sorted) (betweens initial nodes)).
Proof.
  destruct (sortAndFixAllNodes_interleave initial nodes)
    as (fixed & _ & Hfst & Hperm & Hsorted & Htext).
  eexists. split; [exact Hsorted|]. split; [|exact Htext].
  rewrite betweens_length, (Permutation_length Hperm), <- Hfst, length_map. reflexivity.
Qed.

(** X12.  The rebuilding of a declaration keeps the declaration and, when
    [ignoreMemberSort] is set or its named specifiers are in order, its text
    as it is.  Otherwise the new text starts with the text of the source
    from the start of the declaration to the first named specifier, and ends
    with the text from the end of the last named specifier to the end of the
    declaration. *)
Theorem rebuilt_text_frame (initial : string) (n : Rich) :
  exists text,
    fixSpecifiers Array_sort config initial n = Some (fst n, text)
    /\ (ignoreMemberSort config = true
        \/ (forall k, unsortedAt (sortableNames config (fst n)) k = false) ->
        text = snd n)
    /\ (ignoreMemberSort config = false ->
        (exists k, unsortedAt (sortableNames config (fst n)) k = true) ->
        exists first last between,
          hd_error (namedSpecifiers (fst n)) = Some first
          /\ lastOf (namedSpecifiers (fst n)) = Some last
          /\ text = (JS.substring initial (fst (range (fst n))) (fst (spec_range first))
                     ++ between
                     ++ JS.substring initial (snd (spec_range last)) (snd (range (fst n))))%string).
Proof.
  unfold fixSpecifiers, sortableNames.
  destruct (ignoreMemberSort config); cbn [negb].
  { exists (snd n). split; [now destruct n|]. split; [reflexivity|discriminate]. }
  destruct (firstUnsorted_spec (ignoreCase config) (namedSpecifiers (fst n)))
    as [[E Hall] | (k & E & Hk & _)]; rewrite E.
  - cbn [Z.eqb negb]. exists (snd n). split; [now destruct n|]. split; [reflexivity|].
    intros _ (k & Hk). rewrite Hall in Hk. discriminate.
  - destruct (Z.eqb_spec (Z.of_nat k) (-1)) as [|_]; [lia|]. cbn [negb].
    apply unsortedAt_bounds in Hk. rewrite length_map in Hk.
    rewrite get_first, get_last by (intros Hnil; rewrite Hnil in Hk; simpl in Hk; lia).
    destruct (hd_error (namedSpecifiers (fst n))) as [first|] eqn:Hfirst;
      [|destruct (namedSpecifiers (fst n)); [simpl in Hk; lia|discriminate]].
    destruct (lastOf (namedSpecifiers (fst n))) as [last|] eqn:Hlast;
      [|apply lastOf_nil in Hlast; rewrite Hlast in Hk; simpl in Hk; lia].
    cbn [bind].
    destruct (specifierTexts_total initial (namedSpecifiers (fst n))
                (Array_sort Specifier (compareSpecifiers config) (namedSpecifiers (fst n)))
                0 "") as (between & Eb); [lia| |].
    { rewrite (Permutation_length (Array_sort_permutes _ _ _)). lia. }
    rewrite Eb. cbn [bind]. eexists. split; [reflexivity|].
    split.
    + intros [H|H]; [discriminate|].
      destruct (firstUnsorted_found _ _ _ E) as [Hf _]. rewrite H in Hf. discriminate.
    + intros _ _. exists first, last, between. auto.
Qed.

End FixText.

(** ** The length of the text of the fix *)

Lemma string_length_app (a b : string) :
  String.length (a ++ b)%string = (String.length a + String.length b)%nat.
Proof. induction a as [|x a IH]; simpl; [reflexivity|now rewrite IH]. Qed.

Lemma String_substring_length (s : string) (n m : nat) :
  (n + m <= String.length s)%nat -> String.length (String.substring n m s) = m.
Proof.
  revert n m. induction s as [|c s IH]; intros n m H; simpl in H.
  - assert (n = 0 /\ m = 0)%nat as [-> ->] by lia. reflexivity.
  - destruct n as [|n]; simpl.
    + destruct m as [|m]; [reflexivity|]. simpl. rewrite IH by lia. reflexivity.
    + apply IH. lia.
Qed.

Lemma substring_length (s : string) (a b : nat) :
  (a <= b)%nat -> (b <= String.length s)%nat ->
  String.length (JS.substring s a b) = (b - a)%nat.
Proof.
  intros Hab Hb. unfold JS.substring.
  rewrite (Nat.min_l a b), (Nat.max_r a b), !Nat.min_l by lia.
  apply String_substring_length. lia.
Qed.

Lemma slice_length (s : string) (a b : nat) :
  (a <= b)%nat -> (b <= String.length s)%nat ->
  String.length (JS.slice s a b) = (b - a)%nat.
Proof.
  intros Hab Hb. unfold JS.slice. rewrite !Nat.min_l by lia.
  apply String_substring_length. lia.
Qed.

Lemma placed_bounds (ranges : list (nat * nat)) (from to : nat) :
  placed from ranges to ->
  (from <= to)%nat
  /\ Forall (fun r => (from <= fst r)%nat /\ (fst r <= snd r)%nat /\ (snd r <= to)%nat) ranges.
Proof.
  revert from. induction ranges as [|r ranges IH]; intros from H; simpl in H.
  - auto.
  - destruct H as (H1 & H2 & H3). destruct (IH _ H3) as [Hle Hall].
    split; [lia|]. constructor; [lia|].
    eapply Forall_impl; [|exact Hall]. simpl. intros x Hx. lia.
Qed.

Lemma placed_skipn (ranges : list (nat * nat)) (from to k : nat) (r : nat * nat) :
  placed from ranges to -> nth_error ranges k = Some r -> placed (fst r) (skipn k ranges) to.
Proof.
  revert from k. induction ranges as [|r0 ranges IH]; intros from k H Hk.
  - destruct k; discriminate.
  - destruct H as (H1 & H2 & H3). destruct k as [|k].
    + simpl in Hk. injection Hk as <-. simpl. auto.
    + simpl in *. eapply IH; eauto.
Qed.

Lemma skipn_cons_nth {A : Type} (l : list A) (k : nat) (x : A) :
  nth_error l k = Some x -> skipn k l = x :: skipn (S k) l.
Proof.
  revert k. induction l as [|y l IH]; intros k H; [destruct k; discriminate|].
  destruct k as [|k]; simpl in *; [congruence|]. now apply IH.
Qed.

Lemma list_sum_cons (x : nat) (l : list nat) : list_sum (x :: l) = (x + list_sum l)%nat.
Proof. reflexivity. Qed.

Lemma list_sum_permutation (l l' : list nat) :
  Permutation l l' -> list_sum l = list_sum l'.
Proof. induction 1; simpl; lia. Qed.

(** The widths of ranges that follow each other, the gaps between them and
    what is before the first and after the last add up to the whole. *)
Lemma placed_total (ranges : list (nat * nat)) (from to : nat) (first last : nat * nat) :
  placed from ranges to ->
  hd_error ranges = Some first ->
  lastOf ranges = Some last ->
  ((fst first - from) + list_sum (map width ranges) + gapsWidth ranges + (to - snd last)
   = to - from)%nat.
Proof.
  revert from first. induction ranges as [|r ranges IH]; intros from first H Hfirst Hlast;
    [discriminate|].
  simpl in Hfirst. injection Hfirst as <-.
  destruct H as (H1 & H2 & H3).
  destruct ranges as [|r' ranges].
  - simpl in Hlast. injection Hlast as <-. simpl in *. unfold width. lia.
  - change (lastOf (r :: r' :: ranges)) with (lastOf (r' :: ranges)) in Hlast.
    specialize (IH (snd r) r' H3 eq_refl Hlast).
    destruct (placed_bounds _ _ _ H3) as [Hle _].
    destruct H3 as (H4 & H5 & H6).
    change (gapsWidth (r :: r' :: ranges))
      with ((fst r' - snd r) + gapsWidth (r' :: ranges))%nat.
    change (list_sum (map width (r :: r' :: ranges)))
      with (width r + list_sum (map width (r' :: ranges)))%nat.
    unfold width at 1. lia.
Qed.

Section FixLength.

Variable Array_sort : forall A : Type, (A -> A -> Z) -> list A -> list A.
Hypothesis Array_sort_permutes : sortPermutes Array_sort.
Variable config : Options.

(** The text of the sorted specifiers and of the gaps after them. *)
Lemma specifierTexts_length (initial : string) (importSpecifiers : list Specifier)
    (to : nat) (sorted : list Specifier) (k from : nat) (sourceText : string) :
  (to <= String.length initial)%nat ->
  (k + List.length sorted = List.length importSpecifiers)%nat ->
  Forall (fun s => (fst (spec_range s) <= snd (spec_range s))%nat
                   /\ (snd (spec_range s) <= to)%nat) sorted ->
  placed from (skipn k (map spec_range importSpecifiers)) to ->
  exists text,
    specifierTexts initial importSpecifiers sorted (Z.of_nat k) sourceText = Some text
    /\ String.length text
       = (String.length sourceText + list_sum (map width (map spec_range sorted))
          + gapsWidth (skipn k (map spec_range importSpecifiers)))%nat.
Proof.
  intros Hto. revert k from sourceText.
  induction sorted as [|specifier sorted IH]; intros k from sourceText Hlen Hin Hplaced.
  - simpl in Hlen. rewrite skipn_all2 by (rewrite length_map; lia).
    exists sourceText. split; [reflexivity|]. simpl. lia.
  - cbn [List.length] in Hlen. cbn [specifierTexts].
    inversion Hin as [|? ? [Hs1 Hs2] Hin']; subst.
    destruct (nth_error importSpecifiers k) as [this|] eqn:Ethis;
      [|apply nth_error_None in Ethis; lia].
    assert (Erange : nth_error (map spec_range importSpecifiers) k = Some (spec_range this))
      by (rewrite nth_error_map, Ethis; reflexivity).
    rewrite (skipn_cons_nth _ _ _ Erange) in Hplaced |- *.
    destruct Hplaced as (_ & Hthis & Hrest).
    destruct (Z.eqb_spec (Z.of_nat k) (Z.of_nat (List.length importSpecifiers) - 1))
      as [E|E].
    + cbn [bind]. replace (Z.of_nat k + 1)%Z with (Z.of_nat (S k)) by lia.
      destruct (IH (S k) (snd (spec_range this))
                  (sourceText
                     ++ JS.substring initial (fst (spec_range specifier))
                          (snd (spec_range specifier)) ++ "")%string)
        as (text & Etext & Hlength); [lia|exact Hin'|exact Hrest|].
      exists text. split; [exact Etext|]. rewrite Hlength.
      rewrite !string_length_app, substring_length by lia.
      rewrite skipn_all2 by (rewrite length_map; lia).
      cbn [map gapsWidth String.length]. rewrite list_sum_cons. unfold width. lia.
    + destruct (nth_error importSpecifiers (S k)) as [next|] eqn:Enext;
        [|apply nth_error_None in Enext; lia].
      assert (Erange' : nth_error (map spec_range importSpecifiers) (S k)
                        = Some (spec_range next))
        by (rewrite nth_error_map, Enext; reflexivity).
      rewrite (skipn_cons_nth _ _ _ Erange') in Hrest |- *.
      rewrite get_nat, Ethis.
      replace (Z.of_nat k + 1)%Z with (Z.of_nat (S k)) by lia.
      rewrite get_nat, Enext. cbn [bind].
      pose proof (placed_bounds _ _ _ Hrest) as [_ Hb].
      inversion Hb as [|? ? (Hn1 & Hn2 & Hn3) _]; subst.
      destruct (IH (S k) (snd (spec_range this))
                  (sourceText
                     ++ JS.substring initial (fst (spec_range specifier))
                          (snd (spec_range specifier))
                     ++ JS.slice initial (snd (spec_range this)) (fst (spec_range next)))%string)
        as (text & Etext & Hlength); [lia|exact Hin'| |].
      { rewrite (skipn_cons_nth _ _ _ Erange'). exact Hrest. }
      exists text. split; [exact Etext|]. rewrite Hlength.
      rewrite (skipn_cons_nth _ _ _ Erange').
      rewrite !string_length_app, substring_length, slice_length by lia.
      cbn [map]. rewrite list_sum_cons. unfold width.
      change (gapsWidth (spec_range this :: spec_range next
                           :: skipn (S (S k)) (map spec_range importSpecifiers)))
        with ((fst (spec_range next) - snd (spec_range this))
              + gapsWidth (spec_range next
                             :: skipn (S (S k)) (map spec_range importSpecifiers)))%nat.
      lia.
Qed.

Lemma fixSpecifiers_length (initial : string) (node : ImportDeclaration) :
  wellPlaced node ->
  (snd (range node) <= String.length initial)%nat ->
  exists text,
    fixSpecifiers Array_sort config initial
      (node, JS.substring initial (fst (range node)) (snd (range node)))
    = Some (node, text)
    /\ String.length text = (snd (range node) - fst (range node))%nat.
Proof.
  intros Hplaced Hend.
  destruct (placed_bounds _ _ _ Hplaced) as [Hle Hall].
  unfold fixSpecifiers. cbn [fst].
  destruct (ignoreMemberSort config); cbn [negb];
    [eexists; split; [reflexivity|apply substring_length; lia]|].
  destruct (Z.eqb_spec (firstUnsorted (ignoreCase config) (namedSpecifiers node)) (-1))
    as [E|E]; cbn [negb];
    [eexists; split; [reflexivity|apply substring_length; lia]|].
  destruct (firstUnsorted_in_bounds _ _ E) as (k & previous & flagged & _ & _ & Hf).
  assert (Hlen : (S k < List.length (namedSpecifiers node))%nat)
    by (apply nth_error_Some; congruence).
  assert (Hne : namedSpecifiers node <> [])
    by (intros Hnil; rewrite Hnil in Hlen; simpl in Hlen; lia).
  rewrite get_first, get_last by exact Hne.
  destruct (hd_error (namedSpecifiers node)) as [first|] eqn:Hfirst;
    [|destruct (namedSpecifiers node); [contradiction|discriminate]].
  destruct (lastOf (namedSpecifiers node)) as [last|] eqn:Hlast;
    [|apply lastOf_nil in Hlast; contradiction].
  cbn [bind].
  pose proof (Array_sort_permutes Specifier (compareSpecifiers config)
                (namedSpecifiers node)) as Hperm.
  destruct (specifierTexts_length initial (namedSpecifiers node) (snd (range node))
              (Array_sort Specifier (compareSpecifiers config) (namedSpecifiers node))
              0 (fst (range node)) "" Hend)
    as (between & Eb & Hbetween).
  { rewrite (Permutation_length Hperm). lia. }
  { eapply Permutation_Forall; [symmetry; exact Hperm|].
    rewrite Forall_map in Hall. eapply Forall_impl; [|exact Hall].
    simpl. intros s Hs. lia. }
  { exact Hplaced. }
  change (Z.of_nat 0) with 0%Z in Eb. rewrite Eb. cbn [bind].
  eexists. split; [reflexivity|].
  assert (Hhd : hd_error (map spec_range (namedSpecifiers node)) = Some (spec_range first))
    by (destruct (namedSpecifiers node); [discriminate|]; simpl in *; congruence).
  assert (Hla : lastOf (map spec_range (namedSpecifiers node)) = Some (spec_range last)).
  { clear - Hlast. induction (namedSpecifiers node) as [|s l IH]; [discriminate|].
    destruct l as [|s' l]; [simpl in *; congruence|].
    change (lastOf (s :: s' :: l)) with (lastOf (s' :: l)) in Hlast.
    specialize (IH Hlast). exact IH. }
  pose proof (placed_total _ _ _ _ _ Hplaced Hhd Hla) as Htotal.
  assert (Hfirst_in : In (spec_range first) (map spec_range (namedSpecifiers node))).
  { destruct (map spec_range (namedSpecifiers node)); [discriminate|].
    simpl in Hhd. injection Hhd as ->. now left. }
  assert (Hlast_in : In (spec_range last) (map spec_range (namedSpecifiers node))).
  { clear - Hla. induction (map spec_range (namedSpecifiers node)) as [|r l IH];
      [discriminate|].
    destruct l as [|r' l]; [simpl in Hla; injection Hla as ->; now left|].
    right. apply IH. exact Hla. }
  rewrite Forall_forall in Hall.
  pose proof (Hall _ Hfirst_in) as (Hf1 & Hf2 & Hf3).
  pose proof (Hall _ Hlast_in) as (Hl1 & Hl2 & Hl3).
  rewrite !string_length_app, !substring_length, Hbetween by lia.
  rewrite (list_sum_permutation _ _
             (Permutation_map width (Permutation_map spec_range Hperm))).
  cbn [String.length skipn]. lia.
Qed.

(** X13.  The rebuilding of a declaration does not change the length of its
    text: for a declaration that is inside the text and whose named
    specifiers are inside it one after the other, the new text has as many
    code units as the range of the declaration.  The specifiers change
    places; the separators and the rest of the declaration stay. *)
Theorem rebuilt_text_length (initial : string) (node : ImportDeclaration) :
  wellPlaced node ->
  (snd (range node) <= String.length initial)%nat ->
  exists text,
    fixSpecifiers Array_sort config initial
      (node, JS.substring initial (fst (range node)) (snd (range node)))
    = Some (node, text)
    /\ String.length text = (snd (range node) - fst (range node))%nat.
Proof. exact (fixSpecifiers_length initial node). Qed.

Lemma interleave_length (texts gaps : list string) :
  List.length texts = S (List.length gaps) ->
  String.length (interleave texts gaps)
  = (list_sum (map String.length texts) + list_sum (map String.length gaps))%nat.
Proof.
  revert gaps. induction texts as [|text texts IH]; intros gaps Hlen; [discriminate|].
  destruct gaps as [|gap gaps].
  - destruct texts; [|discriminate]. simpl. lia.
  - replace (interleave (text :: texts) (gap :: gaps))
      with (text ++ gap ++ interleave texts gaps)%string by (destruct texts; reflexivity).
    rewrite !string_length_app, IH by (simpl in Hlen; lia).
    cbn [map]. rewrite !list_sum_cons. lia.
Qed.

Lemma betweens_width (initial : string) (nodes : list ImportDeclaration) (from to : nat) :
  placed from (map range nodes) to ->
  (to <= String.length initial)%nat ->
  list_sum (map String.length (betweens initial nodes)) = gapsWidth (map range nodes).
Proof.
  intros Hplaced Hto. revert from Hplaced.
  induction nodes as [|node nodes IH]; intros from Hplaced; [reflexivity|].
  destruct nodes as [|next nodes]; [reflexivity|].
  destruct Hplaced as (H1 & H2 & H3).
  pose proof (placed_bounds _ _ _ H3) as [_ Hb].
  inversion Hb as [|? ? (Hn1 & Hn2 & Hn3) _]; subst.
  change (betweens initial (node :: next :: nodes))
    with (JS.substring initial (snd (range node)) (fst (range next))
            :: betweens initial (next :: nodes)).
  change (gapsWidth (map range (node :: next :: nodes)))
    with ((fst (range next) - snd (range node))
          + gapsWidth (map range (next :: nodes)))%nat.
  cbn [map]. rewrite list_sum_cons, substring_length by lia.
  rewrite (IH _ H3). reflexivity.
Qed.

Lemma fixed_lengths (initial : string) (nodes : list ImportDeclaration) (fixed : list Rich) :
  Forall wellPlaced nodes ->
  Forall (fun node => (snd (range node) <= String.length initial)%nat) nodes ->
  mapM (fixSpecifiers Array_sort config initial) (rich initial nodes) = Some fixed ->
  list_sum (map (fun f => String.length (snd f)) fixed)
  = list_sum (map width (map range nodes)).
Proof.
  revert fixed. induction nodes as [|node nodes IH]; intros fixed Hwell Hin E.
  - simpl in E. injection E as <-. reflexivity.
  - inversion Hwell as [|? ? Hw Hwell']; subst.
    inversion Hin as [|? ? Hi Hin']; subst.
    destruct (fixSpecifiers_length initial node Hw Hi) as (text & Etext & Hlen).
    cbn [rich map mapM] in E. rewrite Etext in E. cbn [bind] in E.
    fold (rich initial nodes) in E.
    destruct (mapM (fixSpecifiers Array_sort config initial) (rich initial nodes))
      as [fixed'|] eqn:E'; [|discriminate].
    cbn [bind] in E. injection E as <-.
    cbn [map snd]. rewrite !list_sum_cons, Hlen, (IH fixed' Hwell' Hin' eq_refl).
    reflexivity.
Qed.

(** X14.  The text of the fix has the length of the range it replaces.  For
    a file whose import declarations follow each other inside the text, each
    with its named specifiers inside it one after the other, the text of
    [sortAndFixAllNodes] has as many code units as there are from the start
    of the first declaration to the end of the last one: the fix moves text
    and neither adds nor drops any. *)
Theorem fix_text_length (initial : string) (nodes : list ImportDeclaration)
    (from to : nat) (first last : ImportDeclaration) :
  placed from (map range nodes) to ->
  (to <= String.length initial)%nat ->
  Forall wellPlaced nodes ->
  hd_error nodes = Some first ->
  lastOf nodes = Some last ->
  exists text,
    sortAndFixAllNodes Array_sort config initial nodes = Some text
    /\ String.length text = (snd (range last) - fst (range first))%nat.
Proof.
  intros Hplaced Hto Hwell Hfirst Hlast.
  destruct (sortAndFixAllNodes_interleave Array_sort Array_sort_permutes config
              initial nodes) as (fixed & E & Hfst & Hperm & _ & Htext).
  eexists. split; [exact Htext|].
  destruct (placed_bounds _ _ _ Hplaced) as [Hle Hall].
  assert (Hin : Forall (fun node => (snd (range node) <= String.length initial)%nat) nodes).
  { rewrite Forall_map in Hall. eapply Forall_impl; [|exact Hall]. simpl. intros x Hx. lia. }
  assert (Hlen : List.length (map snd (sortSections Array_sort config (sectionsOf fixed)))
                 = S (List.length (betweens initial nodes))).
  { pose proof (Permutation_length Hperm) as Hp.
    pose proof (f_equal (@List.length _) Hfst) as Hn.
    rewrite length_map in Hn. rewrite length_map, betweens_length.
    unfold Rich in *. rewrite Hp, Hn.
    destruct nodes; [discriminate|simpl; lia]. }
  assert (Hsum : list_sum (map String.length
                             (map snd (sortSections Array_sort config (sectionsOf fixed))))
                 = list_sum (map width (map range nodes))).
  { rewrite map_map.
    etransitivity; [|exact (fixed_lengths initial nodes fixed Hwell Hin E)].
    apply list_sum_permutation.
    exact (Permutation_map (fun f : Rich => String.length (snd f)) Hperm). }
  rewrite (interleave_length _ _ Hlen), Hsum.
  rewrite (betweens_width initial nodes from to Hplaced Hto).
  assert (Hhd : hd_error (map range nodes) = Some (range first))
    by (destruct nodes; [discriminate|]; simpl in *; congruence).
  assert (Hla : lastOf (map range nodes) = Some (range last)).
  { clear - Hlast. induction nodes as [|n l IH]; [discriminate|].
    destruct l as [|n' l]; [simpl in *; congruence|].
    change (lastOf (n :: n' :: l)) with (lastOf (n' :: l)) in Hlast.
    specialize (IH Hlast). exact IH. }
  pose proof (placed_total _ _ _ _ _ Hplaced Hhd Hla) as Htotal.
  assert (Hfirst_in : In (range first) (map range nodes)).
  { destruct (map range nodes); [discriminate|].
    simpl in Hhd. injection Hhd as ->. now left. }
  assert (Hlast_in : In (range last) (map range nodes)).
  { clear - Hla. induction (map range nodes) as [|r l IH]; [discriminate|].
    destruct l as [|r' l]; [simpl in Hla; injection Hla as ->; now left|].
    right. apply IH. exact Hla. }
  rewrite Forall_forall in Hall.
  pose proof (Hall _ Hfirst_in) as (Hf1 & Hf2 & Hf3).
  pose proof (Hall _ Hlast_in) as (Hl1 & Hl2 & Hl3).
  lia.
Qed.

End FixLength.

(** ** When the kind of the imports is reported *)

(** X15.  A [typeOrder] report is made only when the strategy is not
    [mixed] and the declaration has, just above it, a declaration of the
    other kind; its data is the configured strategy.  With the strategy
    [mixed], type imports and value imports are never told apart. *)
Theorem type_order_only_when_kinds_differ
    (Array_sort : forall A : Type, (A -> A -> Z) -> list A -> list A)
    (config : Options) (sourceCode : SourceCode) (st : State) (node : ImportDeclaration) :
  exists st' reports,
    onImportDeclaration Array_sort config sourceCode st node = Some (st', reports)
    /\ forall r, In r reports -> messageId r = typeOrder ->
         typeSortStrategy config <> mixed
         /\ data r = TypeOrderData (typeSortStrategy config)
         /\ exists above,
              previousDeclaration st = Some above
              /\ isLineBetween above node = false
              /\ isTypeImport above <> isTypeImport node.
Proof.
  destruct (checkMembers_messages Array_sort config sourceCode (readSource sourceCode st) node)
    as (members & E & Hmembers).
  unfold onImportDeclaration. rewrite E. cbn [bind]. eexists _, _. split; [reflexivity|].
  intros r Hin Hr. apply in_app_or in Hin. destruct Hin as [Hin|Hin];
    [|rewrite (Hmembers r Hin) in Hr; discriminate].
  destruct (previousDeclaration st) as [above|]; [|contradiction].
  destruct (isLineBetween above node) eqn:Hline; [contradiction|].
  cbn [negb] in Hin. unfold comparePrevious in Hin.
  destruct (negb (TypeSortStrategy_eqb (typeSortStrategy config) mixed)
            && negb (Bool.eqb (isTypeImport node) (isTypeImport above))) eqn:Hc.
  - apply andb_true_iff in Hc. destruct Hc as [Hs Ht].
    assert (Hmixed : typeSortStrategy config <> mixed).
    { intros Hm. rewrite Hm in Hs. discriminate. }
    assert (Hkinds : isTypeImport above <> isTypeImport node).
    { intros Hk. rewrite Hk, eqb_reflx in Ht. discriminate. }
    destruct (isTypeImport node && TypeSortStrategy_eqb (typeSortStrategy config) before
              || isTypeImport above && TypeSortStrategy_eqb (typeSortStrategy config) after);
      [|contradiction].
    destruct Hin as [<-|[]]. split; [exact Hmixed|]. split; [reflexivity|].
    exists above. auto.
  - exfalso.
    repeat match type of Hin with
           | context [if ?c then _ else _] => destruct c
           end;
      simpl in Hin; try contradiction; destruct Hin as [<-|[]]; discriminate Hr.
Qed.

(** ** The further properties on files of the tests *)

Lemma no_order_report_after_gap_witness :
  let st := {| previousDeclaration := Some Fixtures.twoRuns_2; initialSource := None |} in
  isLineBetween Fixtures.twoRuns_2 Fixtures.twoRuns_3 = true
  /\ exists st' reports,
       onImportDeclaration (@V8.sort) defaultOptions Fixtures.twoRuns st Fixtures.twoRuns_3
       = Some (st', reports)
       /\ reported typeOrder reports = false
       /\ reported wrongOrder reports = false
       /\ reported alphabeticalOrder reports = false.
Proof.
  intros st. split; [reflexivity|].
  apply (no_order_report_after_gap (@V8.sort) defaultOptions Fixtures.twoRuns st
           Fixtures.twoRuns_3).
  intros above H. injection H as <-. reflexivity.
Defined.

Lemma fix_keeps_every_declaration_witness :
  exists sorted,
    sortedNodes (@V8.sort) defaultOptions (getText Fixtures.twoRuns)
      (allDeclarations Fixtures.twoRuns) = Some sorted
    /\ Permutation (map fst sorted) (allDeclarations Fixtures.twoRuns)
    /\ List.length sorted = List.length (allDeclarations Fixtures.twoRuns).
Proof.
  exact (fix_keeps_every_declaration (@V8.sort) V8Facts.sort_permutes defaultOptions
           (getText Fixtures.twoRuns) (allDeclarations Fixtures.twoRuns)).
Defined.

Lemma fix_text_interleaves_witness :
  exists sorted,
    sortedNodes (@V8.sort) defaultOptions (getText Fixtures.twoRuns)
      (allDeclarations Fixtures.twoRuns) = Some sorted
    /\ List.length (betweens (getText Fixtures.twoRuns) (allDeclarations Fixtures.twoRuns))
       = (List.length sorted - 1)%nat
    /\ sortAndFixAllNodes (@V8.sort) defaultOptions (getText Fixtures.twoRuns)
         (allDeclarations Fixtures.twoRuns)
       = Some (interleave (map snd sorted)
                 (betweens (getText Fixtures.twoRuns) (allDeclarations Fixtures.twoRuns))).
Proof.
  exact (fix_text_interleaves (@V8.sort) V8Facts.sort_permutes defaultOptions
           (getText Fixtures.twoRuns) (allDeclarations Fixtures.twoRuns)).
Defined.

Lemma rebuilt_text_frame_witness :
  let n := (Fixtures.members_1, getText Fixtures.members) in
  exists text,
    fixSpecifiers (@V8.sort) defaultOptions (getText Fixtures.members) n = Some (fst n, text)
    /\ (ignoreMemberSort defaultOptions = true
        \/ (forall k, unsortedAt (sortableNames defaultOptions (fst n)) k = false) ->
        text = snd n)
    /\ (ignoreMemberSort defaultOptions = false ->
        (exists k, unsortedAt (sortableNames defaultOptions (fst n)) k = true) ->
        exists first last between,
          hd_error (namedSpecifiers (fst n)) = Some first
          /\ lastOf (namedSpecifiers (fst n)) = Some last
          /\ text = (JS.substring (getText Fixtures.members) (fst (range (fst n)))
                       (fst (spec_range first))
                     ++ between
                     ++ JS.substring (getText Fixtures.members) (snd (spec_range last))
                          (snd (range (fst n))))%string).
Proof.
  intros n.
  exact (rebuilt_text_frame (@V8.sort) V8Facts.sort_permutes defaultOptions
           (getText Fixtures.members) n).
Defined.

Lemma rebuilt_text_length_witness :
  (wellPlaced Fixtures.members_1
   /\ (snd (range Fixtures.members_1) <= String.length (getText Fixtures.members))%nat)
  /\ exists text,
       fixSpecifiers (@V8.sort) defaultOptions (getText Fixtures.members)
         (Fixtures.members_1,
          JS.substring (getText Fixtures.members) (fst (range Fixtures.members_1))
            (snd (range Fixtures.members_1)))
       = Some (Fixtures.members_1, text)
       /\ String.length text
          = (snd (range Fixtures.members_1) - fst (range Fixtures.members_1))%nat.
Proof.
  assert (H1 : wellPlaced Fixtures.members_1) by (vm_compute; repeat split; lia).
  assert (H2 : (snd (range Fixtures.members_1) <= String.length (getText Fixtures.members))%nat)
    by (vm_compute; lia).
  split; [auto|].
  exact (rebuilt_text_length (@V8.sort) V8Facts.sort_permutes defaultOptions
           (getText Fixtures.members) Fixtures.members_1 H1 H2).
Defined.

Lemma fix_text_length_witness :
  (placed 0 (map range (allDeclarations Fixtures.twoRuns)) 72
   /\ (72 <= String.length (getText Fixtures.twoRuns))%nat
   /\ Forall wellPlaced (allDeclarations Fixtures.twoRuns))
  /\ exists text,
       sortAndFixAllNodes (@V8.sort) defaultOptions (getText Fixtures.twoRuns)
         (allDeclarations Fixtures.twoRuns) = Some text
       /\ String.length text
          = (snd (range Fixtures.twoRuns_3) - fst (range Fixtures.twoRuns_1))%nat.
Proof.
  assert (H1 : placed 0 (map range (allDeclarations Fixtures.twoRuns)) 72)
    by (vm_compute; repeat split; lia).
  assert (H2 : (72 <= String.length (getText Fixtures.twoRuns))%nat) by (vm_compute; lia).
  assert (H3 : Forall wellPlaced (allDeclarations Fixtures.twoRuns))
    by (repeat constructor; vm_compute; lia).
  split; [auto|].
  exact (fix_text_length (@V8.sort) V8Facts.sort_permutes defaultOptions
           (getText Fixtures.twoRuns) (allDeclarations Fixtures.twoRuns) 0 72
           Fixtures.twoRuns_1 Fixtures.twoRuns_3 H1 H2 H3 eq_refl eq_refl).
Defined.
